(** * sonyflakex: machine-ID lease lifecycle around a Sonyflake encoder

    A shallow embedding of package [sonyflakex] (generator construction,
    [NextID]/[ToTime]/[Decompose] delegation, [Stop] and the background
    [heartbeat] goroutine), followed by the properties of the lease
    lifecycle and of the identifiers.

    Conventions.
    - [time.Time] and [time.Duration] are integers of nanoseconds ([Z]);
      a [time.Time] is counted from the Unix epoch.
    - The wall clock is an oracle: the k-th call of [time.Now] returns the
      k-th reading.  Sleeping until an instant raises every later reading
      to at least that instant.
    - The coordination store behind the [Repo] interface is a state of an
      arbitrary type [R]; every call made through the interface is
      appended to a log of events, in program order.
    - [context.Context] values (deadlines of the repo calls) are not
      modelled. *)

From Stdlib Require Import ZArith Lia List Bool Sorted DecimalString.
From stdpp Require Import base list gmap strings.
Import ListNotations.

Local Open Scope Z_scope.

(** ** Errors *)

(** The five package-level sentinels are values of their own: Go compares
    them by identity.  [errors_New] is a fresh [errors.New]/[fmt.Errorf]
    value without a wrapped error, [wrapError] a [fmt.Errorf] value with
    one [%w] verb: its rendered text and the error it wraps. *)
Inductive error : Type :=
| ErrInvalidStartTime
| ErrInvalidTimeUnit
| ErrAcquireMachineID
| ErrReleaseMachineID
| ErrInvalidBitLength
| errors_New (msg : string)
| wrapError (msg : string) (wrapped : error).

#[global] Instance error_eq_dec : EqDecision error.
Proof. solve_decision. Defined.

(** [err.Error()] *)
Definition Error (e : error) : string :=
  match e with
  | ErrInvalidStartTime => "start time must be in the past"
  | ErrInvalidTimeUnit => "time unit must be at least 1ms"
  | ErrAcquireMachineID => "failed to acquire machine ID"
  | ErrReleaseMachineID => "failed to release machine ID"
  | ErrInvalidBitLength => "invalid bit length configuration"
  | errors_New msg => msg
  | wrapError msg _ => msg
  end.

(** [errors.Is(err, target)]: [err] or an error on its unwrap chain is
    [target]. *)
Fixpoint errors_Is (err target : error) : bool :=
  bool_decide (err = target) ||
  match err with
  | wrapError _ inner => errors_Is inner target
  | _ => false
  end.

(** The [%d] verb. *)
Definition itoa (z : Z) : string := NilZero.string_of_int (Z.to_int z).

(** ** Time *)

Definition time_Millisecond : Z := 1000000.
Definition time_Second : Z := 1000000000.

Record Clock : Type := mkClock {
  readings : nat -> Z;
  cursor : nat
}.

(** [time.Now()] *)
Definition time_Now (k : Clock) : Z * Clock :=
  (readings k (cursor k), mkClock (readings k) (S (cursor k))).

(** [time.Sleep] until the instant [t]: no later reading is before [t]. *)
Definition sleep_until (t : Z) (k : Clock) : Clock :=
  mkClock (fun n => Z.max (readings k n) t) (cursor k).

(** A clock that never runs backwards. *)
Definition monotone (k : Clock) : Prop :=
  forall n, readings k n <= readings k (S n).

(** [t.After(u)] *)
Definition After (t u : Z) : bool := u <? t.

(** ** The coordination store: interface [Repo] *)

Inductive Event : Type :=
| EvAcquire (ttl : Z) (id : Z) (err : option error)
| EvRenew (id ttl : Z) (err : option error)
| EvRelease (id : Z) (err : option error)
| EvGoHeartbeat
| EvCloseStop
| EvCloseDone.

Record Repo (R : Type) : Type := mkRepo {
  AcquireMachineID : Z -> R -> (Z * option error) * R;
  RenewMachineID : Z -> Z -> R -> option error * R;
  ReleaseMachineID : Z -> R -> option error * R
}.
Arguments AcquireMachineID {R} _ _ _.
Arguments RenewMachineID {R} _ _ _ _.
Arguments ReleaseMachineID {R} _ _ _.

Record World (R : Type) : Type := mkWorld {
  wclock : Clock;
  store : R;
  calls : list Event
}.
Arguments mkWorld {R} _ _ _.
Arguments wclock {R} _.
Arguments store {R} _.
Arguments calls {R} _.

Definition set_clock {R} (k : Clock) (w : World R) : World R :=
  mkWorld k (store w) (calls w).

Definition emit {R} (e : Event) (w : World R) : World R :=
  mkWorld (wclock w) (store w) (calls w ++ [e]).

(** The three calls through the interface, each logged with its result. *)
Definition callAcquire {R} (repo : Repo R) (ttl : Z) (w : World R)
  : (Z * option error) * World R :=
  let '((id, err), st) := AcquireMachineID repo ttl (store w) in
  ((id, err), mkWorld (wclock w) st (calls w ++ [EvAcquire ttl id err])).

Definition callRenew {R} (repo : Repo R) (id ttl : Z) (w : World R)
  : option error * World R :=
  let '(err, st) := RenewMachineID repo id ttl (store w) in
  (err, mkWorld (wclock w) st (calls w ++ [EvRenew id ttl err])).

Definition callRelease {R} (repo : Repo R) (id : Z) (w : World R)
  : option error * World R :=
  let '(err, st) := ReleaseMachineID repo id (store w) in
  (err, mkWorld (wclock w) st (calls w ++ [EvRelease id err])).

(** ** Configuration *)

Definition defaultBitsMachine : Z := 16.
Definition defaultBitsSequence : Z := 8.

(** The fields of [sonyflake.Settings] that the package sets. *)
Record Settings : Type := mkSettings {
  StartTime : Z;
  TimeUnit : Z;
  MachineID : option (unit -> Z * option error);
  CheckMachineID : option (Z -> bool)
}.

Record generatorConfig : Type := mkConfig {
  settings : Settings;
  cfg_ttl : Z;
  cfg_renewFreq : Z
}.

(** 2025-01-01T00:00:00Z *)
Definition date_2025_01_01 : Z := 1735689600 * time_Second.

Definition defaultGeneratorConfig : generatorConfig :=
  mkConfig (mkSettings date_2025_01_01 (10 * time_Millisecond) None None)
           (30 * time_Second) (10 * time_Second).

(** [type Option]: a function on a pointer to the configuration that
    returns an error; the configuration is updated in place, the clock
    may be read. *)
Definition Option : Type :=
  generatorConfig -> Clock -> (generatorConfig * option error) * Clock.

Definition set_StartTime (t : Z) (c : generatorConfig) : generatorConfig :=
  mkConfig (mkSettings t (TimeUnit (settings c)) (MachineID (settings c))
                       (CheckMachineID (settings c)))
           (cfg_ttl c) (cfg_renewFreq c).

Definition set_TimeUnit (d : Z) (c : generatorConfig) : generatorConfig :=
  mkConfig (mkSettings (StartTime (settings c)) d (MachineID (settings c))
                       (CheckMachineID (settings c)))
           (cfg_ttl c) (cfg_renewFreq c).

Definition WithStartTime (t : Z) : Option := fun c k =>
  let '(now, k') := time_Now k in
  if After t now then ((c, Some ErrInvalidStartTime), k')
  else ((set_StartTime t c, None), k').

Definition WithTimeUnit (d : Z) : Option := fun c k =>
  if d <? time_Millisecond then ((c, Some ErrInvalidTimeUnit), k)
  else ((set_TimeUnit d c, None), k).

Definition WithTTL (d : Z) : Option := fun c k =>
  if d <=? 0 then ((c, Some (errors_New "ttl must be positive")), k)
  else ((mkConfig (settings c) d (cfg_renewFreq c), None), k).

Definition WithRenewFrequency (d : Z) : Option := fun c k =>
  if d <=? 0 then ((c, Some (errors_New "renew frequency must be positive")), k)
  else ((mkConfig (settings c) (cfg_ttl c) d, None), k).

Definition validateConfig (cfg : generatorConfig) (k : Clock)
  : option error * Clock :=
  let '(now, k') := time_Now k in
  if After (StartTime (settings cfg)) now then (Some ErrInvalidStartTime, k')
  else if TimeUnit (settings cfg) <? time_Millisecond
  then (Some ErrInvalidTimeUnit, k')
  else if (cfg_ttl cfg <=? 0) || (cfg_renewFreq cfg <=? 0)
  then (Some (errors_New "TTL and renew frequency must be positive"), k')
  else if cfg_renewFreq cfg >=? cfg_ttl cfg
  then (Some (errors_New "renew frequency must be less than TTL"), k')
  else (None, k').

(** The loop of [New] over its options: the first failing option ends
    construction. *)
Fixpoint applyOptions (opts : list Option) (cfg : generatorConfig) (k : Clock)
  : (generatorConfig + error) * Clock :=
  match opts with
  | [] => (inl cfg, k)
  | opt :: rest =>
      let '((cfg', err), k') := opt cfg k in
      match err with
      | Some e => (inr (wrapError ("apply option failed: " +:+ Error e) e), k')
      | None => applyOptions rest cfg' k'
      end
  end.

(** ** The encoder library, as the package uses it *)

(** [github.com/sony/sonyflake/v2]: the constructor and the three methods
    the Generator delegates to.  The encoder reads the clock and keeps a
    state of its own; it has no access to the coordination store. *)
Class SonyflakeLib (SF : Type) : Type := {
  sonyflake_New : Settings -> Clock -> (SF + error) * Clock;
  sf_NextID : SF -> Clock -> ((Z * option error) * SF) * Clock;
  sf_ToTime : SF -> Z -> Z;
  sf_Decompose : SF -> Z -> gmap string Z
}.

(** ** The Generator *)

Inductive Chan : Type := Open | Closed.

(** [sync.Once]: not yet entered, its function running, done. *)
Inductive Once : Type := OnceFresh | OnceRunning | OnceDone.

#[global] Instance Chan_eq_dec : EqDecision Chan.
Proof. solve_decision. Defined.

#[global] Instance Once_eq_dec : EqDecision Once.
Proof. solve_decision. Defined.

Section Generator.
Context {R SF : Type} `{SonyflakeLib SF}.

Record Generator : Type := mkGenerator {
  sf : SF;
  repo : Repo R;
  machineID : Z;
  stopChan : Chan;
  doneChan : Chan;
  stopOnce : Once;
  stopErr : option error;
  ttl : Z;
  renewFreq : Z
}.

Definition maxMachineID : Z := Z.shiftl 1 defaultBitsMachine.

(** [New(repo, opts...)]; a nil interface value is [None].  On success
    the heartbeat goroutine has been started ([EvGoHeartbeat]). *)
Definition New (repo : option (Repo R)) (opts : list Option) (w : World R)
  : (Generator + error) * World R :=
  match repo with
  | None => (inr (errors_New "sonyflakex repo is required"), w)
  | Some repo =>
      let '(applied, k1) := applyOptions opts defaultGeneratorConfig (wclock w) in
      match applied with
      | inr err => (inr err, set_clock k1 w)
      | inl cfg =>
          let '(verr, k2) := validateConfig cfg k1 in
          match verr with
          | Some err => (inr err, set_clock k2 w)
          | None =>
              let '((machineID, aerr), w1) :=
                callAcquire repo (cfg_ttl cfg) (set_clock k2 w) in
              match aerr with
              | Some err =>
                  (inr (wrapError (Error ErrAcquireMachineID +:+ ": " +:+ Error err)
                                  ErrAcquireMachineID), w1)
              | None =>
                  if (machineID <? 0) || (machineID >=? maxMachineID) then
                    let '(_, w2) := callRelease repo machineID w1 in
                    (inr (errors_New ("machine ID " +:+ itoa machineID
                                      +:+ " exceeds bit space (0-"
                                      +:+ itoa (maxMachineID - 1) +:+ ")")), w2)
                  else
                    let st := mkSettings (StartTime (settings cfg))
                                         (TimeUnit (settings cfg))
                                         (Some (fun _ => (machineID, None)))
                                         (Some (fun id => id =? machineID)) in
                    let '(made, k3) := sonyflake_New st (wclock w1) in
                    match made with
                    | inr err =>
                        let '(_, w2) := callRelease repo machineID (set_clock k3 w1) in
                        (inr (wrapError ("sonyflake initialization failed: "
                                         +:+ Error err) err), w2)
                    | inl enc =>
                        (inl (mkGenerator enc repo machineID Open Open OnceFresh
                                          None (cfg_ttl cfg) (cfg_renewFreq cfg)),
                         emit EvGoHeartbeat (set_clock k3 w1))
                    end
              end
          end
      end
  end.

Definition set_sf (enc : SF) (g : Generator) : Generator :=
  mkGenerator enc (repo g) (machineID g) (stopChan g) (doneChan g)
              (stopOnce g) (stopErr g) (ttl g) (renewFreq g).

(** [g.NextID()] *)
Definition NextID (g : Generator) (w : World R)
  : ((Z * option error) * Generator) * World R :=
  let '((r, enc), k) := sf_NextID (sf g) (wclock w) in
  ((r, set_sf enc g), set_clock k w).

(** [g.ToTime(id)] *)
Definition ToTime (g : Generator) (id : Z) : Z := sf_ToTime (sf g) id.

(** [g.Decompose(id)] *)
Definition Decompose (g : Generator) (id : Z) : gmap string Z :=
  sf_Decompose (sf g) id.

End Generator.

(** ** Goroutines: [Stop] callers and the [heartbeat] task

    One Generator is shared by the heartbeat goroutine, any number of
    [Stop] invocations and the callers of [NextID].  Each goroutine is a
    program counter over the statements of its function; a schedule picks
    which goroutine takes its next step.  A blocked goroutine has no step;
    a runtime panic is recorded in the state. *)

(** Program points of [heartbeat]. *)
Inductive HbPc : Type :=
| HbStart     (* before time.NewTicker *)
| HbSelect    (* at the select *)
| HbRenew     (* a tick was received: before RenewMachineID *)
| HbReturn    (* stopChan was received: the deferred close(doneChan) is due *)
| HbTickerStop (* doneChan is closed: the deferred ticker.Stop() is due *)
| HbDone.     (* the goroutine has exited *)

(** Program points of one invocation of [Stop]. *)
Inductive StopPc : Type :=
| StopEnter                 (* before stopOnce.Do *)
| StopClose                 (* in the once function: before close(stopChan) *)
| StopWait                  (* before the receive on doneChan *)
| StopRelease               (* before ReleaseMachineID *)
| StopOnceExit              (* the once function returned *)
| StopRet                   (* before return g.stopErr *)
| StopReturned (err : option error).

Inductive Action : Type :=
| ActHbStart          (* heartbeat creates its ticker *)
| ActHbTick           (* select takes the ticker case *)
| ActHbStop           (* select takes the stopChan case *)
| ActHbRenew          (* heartbeat calls RenewMachineID *)
| ActHbExit           (* heartbeat runs its deferred close(doneChan) *)
| ActHbTickerStop     (* heartbeat runs its deferred ticker.Stop() and exits *)
| ActStopCall         (* some caller invokes Stop *)
| ActStop (i : nat)   (* the i-th invocation of Stop takes a step *)
| ActNextID.          (* some caller runs NextID *)

#[global] Instance Event_eq_dec : EqDecision Event.
Proof. solve_decision. Defined.

#[global] Instance HbPc_eq_dec : EqDecision HbPc.
Proof. solve_decision. Defined.

#[global] Instance StopPc_eq_dec : EqDecision StopPc.
Proof. solve_decision. Defined.

#[global] Instance Action_eq_dec : EqDecision Action.
Proof. solve_decision. Defined.

Section Goroutines.
Context {R SF : Type} `{SonyflakeLib SF}.

Abbreviation Generator := (@Generator R SF).

Record Sys : Type := mkSys {
  gen : Generator;
  hb : HbPc;
  stops : list StopPc;
  ids : list (Z * option error);
  world : World R;
  panicked : bool
}.

Definition set_stopChan (c : Chan) (g : Generator) : Generator :=
  mkGenerator (sf g) (repo g) (machineID g) c (doneChan g)
              (stopOnce g) (stopErr g) (ttl g) (renewFreq g).
Definition set_doneChan (c : Chan) (g : Generator) : Generator :=
  mkGenerator (sf g) (repo g) (machineID g) (stopChan g) c
              (stopOnce g) (stopErr g) (ttl g) (renewFreq g).
Definition set_stopOnce (o : Once) (g : Generator) : Generator :=
  mkGenerator (sf g) (repo g) (machineID g) (stopChan g) (doneChan g)
              o (stopErr g) (ttl g) (renewFreq g).
Definition set_stopErr (e : option error) (g : Generator) : Generator :=
  mkGenerator (sf g) (repo g) (machineID g) (stopChan g) (doneChan g)
              (stopOnce g) e (ttl g) (renewFreq g).

Definition with_gen (g : Generator) (s : Sys) : Sys :=
  mkSys g (hb s) (stops s) (ids s) (world s) (panicked s).
Definition with_hb (p : HbPc) (s : Sys) : Sys :=
  mkSys (gen s) p (stops s) (ids s) (world s) (panicked s).
Definition with_stops (l : list StopPc) (s : Sys) : Sys :=
  mkSys (gen s) (hb s) l (ids s) (world s) (panicked s).
Definition with_world (w : World R) (s : Sys) : Sys :=
  mkSys (gen s) (hb s) (stops s) (ids s) w (panicked s).
Definition panic (s : Sys) : Sys :=
  mkSys (gen s) (hb s) (stops s) (ids s) (world s) true.

(** The state in which [New] hands over a Generator: the heartbeat
    goroutine exists and has not run yet. *)
Definition launch (g : Generator) (w : World R) : Sys :=
  mkSys g HbStart [] [] w false.

(** One step of [heartbeat].  [time.NewTicker] panics on a non-positive
    period; a select with both cases ready may take either; closing a
    closed channel panics.  The deferred calls run last in, first out:
    [close(g.doneChan)] first, then [ticker.Stop()], which touches
    neither the Generator nor the store; after it the goroutine is gone. *)
Definition heartbeat (a : Action) (s : Sys) : option Sys :=
  match a, hb s with
  | ActHbStart, HbStart =>
      if renewFreq (gen s) <=? 0 then Some (panic s)
      else Some (with_hb HbSelect s)
  | ActHbTick, HbSelect => Some (with_hb HbRenew s)
  | ActHbStop, HbSelect =>
      match stopChan (gen s) with
      | Closed => Some (with_hb HbReturn s)
      | Open => None
      end
  | ActHbRenew, HbRenew =>
      let '(_, w) := callRenew (repo (gen s)) (machineID (gen s))
                               (ttl (gen s)) (world s) in
      Some (with_hb HbSelect (with_world w s))
  | ActHbExit, HbReturn =>
      match doneChan (gen s) with
      | Closed => Some (panic s)
      | Open =>
          Some (with_hb HbTickerStop
                  (with_gen (set_doneChan Closed (gen s))
                            (with_world (emit EvCloseDone (world s)) s)))
      end
  | ActHbTickerStop, HbTickerStop => Some (with_hb HbDone s)
  | _, _ => None
  end.

(** One step of the [i]-th invocation of [Stop], at program point [pc].
    [sync.Once.Do] runs its function in the first caller and blocks every
    other caller until that function has returned. *)
Definition Stop (i : nat) (pc : StopPc) (s : Sys) : option Sys :=
  let g := gen s in
  let goto pc' s' := Some (with_stops (<[i := pc']> (stops s')) s') in
  match pc with
  | StopEnter =>
      match stopOnce g with
      | OnceFresh => goto StopClose (with_gen (set_stopOnce OnceRunning g) s)
      | OnceRunning => None
      | OnceDone => goto StopRet s
      end
  | StopClose =>
      match stopChan g with
      | Closed => Some (panic s)
      | Open => goto StopWait
                  (with_gen (set_stopChan Closed g)
                            (with_world (emit EvCloseStop (world s)) s))
      end
  | StopWait =>
      match doneChan g with
      | Closed => goto StopRelease s
      | Open => None
      end
  | StopRelease =>
      let '(err, w) := callRelease (repo g) (machineID g) (world s) in
      match err with
      | Some e =>
          goto StopOnceExit
            (with_gen (set_stopErr
                         (Some (wrapError (Error ErrReleaseMachineID +:+ ": "
                                           +:+ Error e) ErrReleaseMachineID)) g)
                      (with_world w s))
      | None => goto StopOnceExit (with_world w s)
      end
  | StopOnceExit => goto StopRet (with_gen (set_stopOnce OnceDone g) s)
  | StopRet => goto (StopReturned (stopErr g)) s
  | StopReturned _ => None
  end.

(** One scheduled step of the whole system. *)
Definition exec (a : Action) (s : Sys) : option Sys :=
  if panicked s then None else
  match a with
  | ActStopCall => Some (with_stops (stops s ++ [StopEnter]) s)
  | ActStop i =>
      match stops s !! i with
      | Some pc => Stop i pc s
      | None => None
      end
  | ActNextID =>
      let '((r, g), w) := NextID (gen s) (world s) in
      Some (mkSys g (hb s) (stops s) (ids s ++ [r]) w (panicked s))
  | _ => heartbeat a s
  end.

Fixpoint run (sched : list Action) (s : Sys) : option Sys :=
  match sched with
  | [] => Some s
  | a :: rest =>
      match exec a s with
      | Some s' => run rest s'
      | None => None
      end
  end.

End Goroutines.

(** ** The lease state machine read off the event log *)

Inductive Phase : Type :=
| Renewing     (* the heartbeat may renew *)
| Signalled    (* stopChan is closed *)
| Exited       (* doneChan is closed: the heartbeat has left its loop *)
| Released     (* ReleaseMachineID has been called *)
| Broken.      (* any other order of events *)

#[global] Instance Phase_eq_dec : EqDecision Phase.
Proof. solve_decision. Defined.

Definition phase_step (p : Phase) (e : Event) : Phase :=
  match p, e with
  | Renewing, EvRenew _ _ _ => Renewing
  | Renewing, EvCloseStop => Signalled
  | Signalled, EvRenew _ _ _ => Signalled
  | Signalled, EvCloseDone => Exited
  | Exited, EvRelease _ _ => Released
  | _, _ => Broken
  end.

Definition phase_of (evs : list Event) : Phase :=
  fold_left phase_step evs Renewing.

Definition is_release (e : Event) : bool :=
  match e with EvRelease _ _ => true | _ => false end.
Definition is_renew (e : Event) : bool :=
  match e with EvRenew _ _ _ => true | _ => false end.
Definition is_acquire (e : Event) : bool :=
  match e with EvAcquire _ _ _ => true | _ => false end.

Definition count (p : Event -> bool) (evs : list Event) : nat :=
  length (filter (fun e => p e = true) evs).

(** ** The identifier encoder

    The encoder is the external library [github.com/sony/sonyflake/v2];
    its source is not part of the package.  It is modelled from the
    design document (sections 3 and 4.1). *)
Module Encoder.

(** Modelled from the spec: the field widths of section 3 (elapsed time
    39 bits, machine ID 16 bits, sequence 8 bits, most significant
    first). *)
Definition bitsTime : Z := 39.
Definition bitsMachine : Z := 16.
Definition bitsSequence : Z := 8.

(** Modelled from the spec: the encoder state of section 3 (epoch, time
    unit, last-seen elapsed-time-units value, current sequence value,
    machine ID); the library's struct is missing. *)
Record Sonyflake : Type := mkSonyflake {
  epoch : Z;
  timeUnit : Z;
  lastElapsed : Z;
  sequence : Z;
  machine : Z
}.

(** Modelled from the spec: the overflow error of section 4.1, step 1. *)
Definition ErrOverTimeLimit : error := errors_New "over the time limit".

(** Modelled from the spec: step 4 of section 4.1, packing by the layout
    of section 3. *)
Definition pack (elapsed mach seq : Z) : Z :=
  Z.lor (Z.lor (Z.shiftl elapsed (bitsMachine + bitsSequence))
               (Z.shiftl mach bitsSequence))
        seq.

(** Modelled from the spec: the three fields extracted by [Decompose]
    and [ToTime] (section 4.1), inverse to the layout of section 3. *)
Definition timePart (id : Z) : Z := Z.shiftr id (bitsMachine + bitsSequence).
Definition machinePart (id : Z) : Z :=
  Z.land (Z.shiftr id bitsSequence) (Z.ones bitsMachine).
Definition sequencePart (id : Z) : Z := Z.land id (Z.ones bitsSequence).

(** Modelled from the spec: the library's constructor is missing.  The
    machine ID is taken from the [MachineID] callback and confirmed by
    [CheckMachineID]; it must fit the machine-ID width and the time unit
    must be at least 1ms (section 3).  The spec does not give the
    initial counters; they start at zero. *)
Definition New (st : Settings) (k : Clock) : (Sonyflake + error) * Clock :=
  if TimeUnit st <? time_Millisecond
  then (inr (errors_New "invalid time unit"), k)
  else
    match MachineID st with
    | None => (inr (errors_New "no machine id"), k)
    | Some f =>
        let '(m, err) := f tt in
        match err with
        | Some e => (inr e, k)
        | None =>
            if (m <? 0) || (m >=? 2 ^ bitsMachine)
            then (inr (errors_New "invalid machine id"), k)
            else if match CheckMachineID st with
                    | Some check => negb (check m)
                    | None => false
                    end
            then (inr (errors_New "invalid machine id"), k)
            else (inl (mkSonyflake (StartTime st) (TimeUnit st) 0 0 m), k)
        end
    end.

Definition advance (elapsed seq : Z) (s : Sonyflake) : Sonyflake :=
  mkSonyflake (epoch s) (timeUnit s) elapsed seq (machine s).

(** Modelled from the spec: [NextID] of section 4.1; the library's
    method is missing.
    - Step 1: [elapsed = floor((now - epoch) / timeUnit)], an overflow
      error when [now < epoch] or when [elapsed] does not fit the time
      field.
    - Step 2: on [elapsed = lastElapsed] the sequence is incremented;
      when it overflows, the call sleeps until the clock reaches the
      next time unit and continues with [lastElapsed + 1] and sequence
      zero.  The overflow test of step 1 applies to that value as well.
    - Step 3: on [elapsed > lastElapsed] the sequence restarts at zero.
    - Step 4: the elapsed value, the machine ID and the sequence are
      packed; the elapsed value packed is the last-seen one of the next
      call.
    The spec says nothing for [elapsed < lastElapsed]: steps 2 and 3 are
    then both skipped.  A failing call leaves the state as it was. *)
Definition NextID (s : Sonyflake) (k : Clock)
  : ((Z * option error) * Sonyflake) * Clock :=
  let '(now, k1) := time_Now k in
  let fail := (((0, Some ErrOverTimeLimit), s), k1) in
  let ok e q k' := (((pack e (machine s) q, None), advance e q s), k') in
  if now <? epoch s then fail
  else
    let elapsed := (now - epoch s) / timeUnit s in
    if elapsed >=? 2 ^ bitsTime then fail
    else if elapsed =? lastElapsed s then
      if sequence s + 1 <? 2 ^ bitsSequence then ok elapsed (sequence s + 1) k1
      else if lastElapsed s + 1 >=? 2 ^ bitsTime then fail
      else ok (lastElapsed s + 1) 0
              (sleep_until (epoch s + (lastElapsed s + 1) * timeUnit s) k1)
    else if lastElapsed s <? elapsed then ok elapsed 0 k1
    else (((pack elapsed (machine s) (sequence s), None), s), k1).

(** Modelled from the spec: [ToTime] of section 4.1,
    [epoch + elapsed * timeUnit]. *)
Definition ToTime (s : Sonyflake) (id : Z) : Z :=
  epoch s + timePart id * timeUnit s.

(** Modelled from the spec: [Decompose] of section 4.1, the three fields
    and the identifier. *)
Definition Decompose (s : Sonyflake) (id : Z) : gmap string Z :=
  <["id" := id]> (<["time" := timePart id]>
    (<["machine-id" := machinePart id]> (<["sequence" := sequencePart id]> ∅))).

#[global] Instance lib : SonyflakeLib Sonyflake := {
  sonyflake_New := New;
  sf_NextID := NextID;
  sf_ToTime := ToTime;
  sf_Decompose := Decompose
}.

End Encoder.


(** * Vocabulary of the properties *)

(** ** Construction *)

(** What [validateConfig] rejects, apart from the start time. *)
Definition bad_durations (cfg : generatorConfig) : Prop :=
  TimeUnit (settings cfg) < time_Millisecond \/ cfg_ttl cfg <= 0 \/
  cfg_renewFreq cfg <= 0 \/ cfg_renewFreq cfg >= cfg_ttl cfg.

(** An option that fails on every configuration. *)
Definition always_fails (o : Option) : Prop :=
  forall c k, exists c' e k', o c k = ((c', Some e), k').

(** The settings [New] hands to the encoder library. *)
Definition encoder_settings (cfg : generatorConfig) (id : Z) : Settings :=
  mkSettings (StartTime (settings cfg)) (TimeUnit (settings cfg))
             (Some (fun _ => (id, None))) (Some (fun i => i =? id)).

(** ** The lease lifecycle *)

(** The value [Stop] returns after a release that returned [r]. *)
Definition Stop_result (r : option error) : option error :=
  match r with
  | Some e => Some (wrapError (Error ErrReleaseMachineID +:+ ": " +:+ Error e)
                              ErrReleaseMachineID)
  | None => None
  end.

(** Program points inside the function passed to [stopOnce.Do]. *)
Definition in_once (pc : StopPc) : bool :=
  match pc with
  | StopClose | StopWait | StopRelease | StopOnceExit => true
  | _ => false
  end.

(** Channels and heartbeat in each phase. *)
Definition hb_ok (ph : Phase) (stopc donec : Chan) (h : HbPc) : Prop :=
  match ph with
  | Renewing =>
      stopc = Open /\ donec = Open /\
      h <> HbReturn /\ h <> HbTickerStop /\ h <> HbDone
  | Signalled =>
      stopc = Closed /\ donec = Open /\ h <> HbTickerStop /\ h <> HbDone
  | Exited | Released =>
      stopc = Closed /\ donec = Closed /\ (h = HbTickerStop \/ h = HbDone)
  | Broken => False
  end.

(** The once and the stop error in each phase. *)
Definition once_ok (ph : Phase) (o : Once) (err : option error) : Prop :=
  match o with
  | OnceFresh => ph = Renewing /\ err = None
  | OnceRunning => ph <> Released -> err = None
  | OnceDone => ph = Released
  end.

(** What each program point of [Stop] knows. *)
Definition pc_ok (ph : Phase) (o : Once) (err : option error) (pc : StopPc) : Prop :=
  match pc with
  | StopEnter => True
  | StopClose => o = OnceRunning /\ ph = Renewing
  | StopWait => o = OnceRunning /\ (ph = Signalled \/ ph = Exited)
  | StopRelease => o = OnceRunning /\ ph = Exited
  | StopOnceExit => o = OnceRunning /\ ph = Released
  | StopRet => o = OnceDone
  | StopReturned e => o = OnceDone /\ e = err
  end.

(** The event of [close(g.stopChan)]. *)
Definition is_close_stop (e : Event) : bool :=
  match e with EvCloseStop => true | _ => false end.

Section LifecycleDefs.
Context {R SF : Type} `{SonyflakeLib SF}.

Abbreviation Generator := (@Generator R SF).
Abbreviation Sys := (@Sys R SF).

(** A Generator as [New] builds it. *)
Definition fresh (g : Generator) : Prop :=
  stopChan g = Open /\ doneChan g = Open /\ stopOnce g = OnceFresh /\
  stopErr g = None /\ 0 < renewFreq g.

(** The invariant of every reachable state; [evs] are the events logged
    since the Generator was handed over. *)
Record Inv (evs : list Event) (s : Sys) : Prop := mkInv {
  inv_alive : panicked s = false;
  inv_freq : 0 < renewFreq (gen s);
  inv_hb : hb_ok (phase_of evs) (stopChan (gen s)) (doneChan (gen s)) (hb s);
  inv_once : once_ok (phase_of evs) (stopOnce (gen s)) (stopErr (gen s));
  inv_result :
    phase_of evs = Released ->
    exists pre r, evs = pre ++ [EvRelease (machineID (gen s)) r] /\
                  stopErr (gen s) = Stop_result r;
  inv_pcs :
    forall j pc, stops s !! j = Some pc ->
                 pc_ok (phase_of evs) (stopOnce (gen s)) (stopErr (gen s)) pc;
  inv_one :
    forall i j pi pj, stops s !! i = Some pi -> stops s !! j = Some pj ->
                      in_once pi = true -> in_once pj = true -> i = j;
  inv_runner :
    stopOnce (gen s) = OnceRunning ->
    exists i pc, stops s !! i = Some pc /\ in_once pc = true
}.

(** The events a step appends to the log. *)
Definition step_events (s s' : Sys) (new : list Event) : Prop :=
  calls (world s') = calls (world s) ++ new.

End LifecycleDefs.

(** ** Progress of [Stop] *)

Definition pc_rank (pc : StopPc) : nat :=
  match pc with
  | StopEnter => 6 | StopClose => 5 | StopWait => 4 | StopRelease => 3
  | StopOnceExit => 2 | StopRet => 1 | StopReturned _ => 0
  end.

Definition hb_rank (h : HbPc) : nat :=
  match h with
  | HbStart | HbRenew => 4 | HbSelect => 3 | HbReturn => 2
  | HbTickerStop => 1 | HbDone => 0
  end.

Definition once_rank (pc : StopPc) : nat :=
  if in_once pc then pc_rank pc else 0%nat.

(** Steps left inside the once function, over all invocations. *)
Definition work (l : list StopPc) : nat := sum_list (once_rank <$> l).

Section ProgressDefs.
Context {R SF : Type} `{SonyflakeLib SF}.

Abbreviation Sys := (@Sys R SF).

Definition pc_at (s : Sys) (i : nat) : StopPc :=
  match stops s !! i with Some pc => pc | None => StopReturned None end.

Definition distance (s : Sys) (i : nat) : nat :=
  (100 * pc_rank (pc_at s i) + 10 * work (stops s) + hb_rank (hb s))%nat.

End ProgressDefs.

(** ** Identifiers *)

(** The packed value of the encoder's current counters. *)
Definition key (s : Encoder.Sonyflake) : Z :=
  Encoder.pack (Encoder.lastElapsed s) (Encoder.machine s) (Encoder.sequence s).

(** The counters stay inside their fields. *)
Record EncWf (s : Encoder.Sonyflake) : Prop := mkEncWf {
  enc_unit : 0 < Encoder.timeUnit s;
  enc_machine : 0 <= Encoder.machine s < 2 ^ 16;
  enc_seq : 0 <= Encoder.sequence s < 2 ^ 8;
  enc_last : 0 <= Encoder.lastElapsed s < 2 ^ 39
}.

(** No reading still to come lies in a time unit before the last-seen
    one. *)
Definition seen (s : Encoder.Sonyflake) (k : Clock) : Prop :=
  forall n, (cursor k <= n)%nat -> Encoder.epoch s <= readings k n ->
            Encoder.lastElapsed s <= (readings k n - Encoder.epoch s) / Encoder.timeUnit s.

(** The identifiers of the successful calls, in call order. *)
Definition successes (rs : list (Z * option error)) : list Z :=
  omap (fun r => match r.2 with None => Some r.1 | Some _ => None end) rs.

Section IdentifierDefs.
Context {R : Type}.

Abbreviation Generator := (@Generator R Encoder.Sonyflake).
Abbreviation Sys := (@Sys R Encoder.Sonyflake).

(** What every identifier handed out by the Generator [g0] looks like. *)
Definition minted (g0 : Generator) (id : Z) : Prop :=
  exists e q, id = Encoder.pack e (machineID g0) q /\ 0 <= e < 2 ^ 39 /\ 0 <= q < 2 ^ 8.

Record IdInv (g0 : Generator) (s : Sys) : Prop := mkIdInv {
  id_wf : EncWf (sf (gen s));
  id_epoch : Encoder.epoch (sf (gen s)) = Encoder.epoch (sf g0);
  id_unit : Encoder.timeUnit (sf (gen s)) = Encoder.timeUnit (sf g0);
  id_machine : Encoder.machine (sf (gen s)) = machineID g0;
  id_range : 0 <= machineID g0 < 2 ^ 16;
  id_minted : Forall (minted g0) (successes (ids s))
}.

Record OrdInv (s : Sys) : Prop := mkOrdInv {
  ord_mono : monotone (wclock (world s));
  ord_seen : seen (sf (gen s)) (wclock (world s));
  ord_sorted : StronglySorted Z.lt (successes (ids s));
  ord_below : Forall (fun id => id <= key (sf (gen s))) (successes (ids s))
}.

End IdentifierDefs.


(** ** The calls of one Generator *)

(** An event the goroutines of the Generator [g] may log: a renewal with
    its machine ID and TTL, the release of its machine ID, the close of one
    of its channels. *)
Definition own_event {R SF : Type} (g : @Generator R SF) (e : Event) : Prop :=
  match e with
  | EvRenew id t _ => id = machineID g /\ t = ttl g
  | EvRelease id _ => id = machineID g
  | EvCloseStop | EvCloseDone => True
  | EvAcquire _ _ _ | EvGoHeartbeat => False
  end.

(** A renewal of the machine ID of [g], with its TTL. *)
Definition own_renewal {R SF : Type} (g : @Generator R SF) (e : Event) : Prop :=
  exists r, e = EvRenew (machineID g) (ttl g) r.

(** ** The test double [MockRepo] *)

(** The mutable fields of [MockRepo]: the three call counters and the pool
    of leased machine IDs, a map to [bool] in which a missing key reads
    [false]. *)
Record MockState : Type := mkMockState {
  acquireCallCount : Z;
  renewCallCount : Z;
  releaseCallCount : Z;
  machineIDPool : gmap Z bool
}.

(** [NewMockRepo()] *)
Definition NewMockRepo : MockState := mkMockState 0 0 0 ∅.

(** [m.machineIDPool[i]] *)
Definition pooled (pool : gmap Z bool) (i : Z) : bool := default false (pool !! i).

(** The loop of the default acquisition: the first [i], counting up from
    the given one for [n] rounds, that is not in the pool. *)
Fixpoint first_free (n : nat) (i : Z) (pool : gmap Z bool) : option Z :=
  match n with
  | O => None
  | S n' => if negb (pooled pool i) then Some i else first_free n' (i + 1) pool
  end.

(** [MockRepo] with its three optional function fields, which the tests
    set to functions of the arguments alone. *)
Definition MockRepo (acquireFunc : option (Z -> Z * option error))
    (renewFunc : option (Z -> Z -> option error))
    (releaseFunc : option (Z -> option error)) : Repo MockState :=
  mkRepo MockState
    (fun ttl m =>
       let m1 := mkMockState (acquireCallCount m + 1) (renewCallCount m)
                             (releaseCallCount m) (machineIDPool m) in
       match acquireFunc with
       | Some f => (f ttl, m1)
       | None =>
           match first_free (Z.to_nat 65536) 0 (machineIDPool m) with
           | Some i =>
               ((i, None),
                mkMockState (acquireCallCount m1) (renewCallCount m1)
                            (releaseCallCount m1) (<[i := true]> (machineIDPool m1)))
           | None => ((0, Some (errors_New "no available machine ID")), m1)
           end
       end)
    (fun id ttl m =>
       let m1 := mkMockState (acquireCallCount m) (renewCallCount m + 1)
                             (releaseCallCount m) (machineIDPool m) in
       match renewFunc with
       | Some f => (f id ttl, m1)
       | None => (None, m1)
       end)
    (fun id m =>
       let m1 := mkMockState (acquireCallCount m) (renewCallCount m)
                             (releaseCallCount m + 1) (machineIDPool m) in
       match releaseFunc with
       | Some f => (f id, m1)
       | None =>
           (None, mkMockState (acquireCallCount m1) (renewCallCount m1)
                              (releaseCallCount m1) (delete id (machineIDPool m1)))
       end).

(** [m.GetCallCounts()] *)
Definition GetCallCounts (m : MockState) : Z * Z * Z :=
  (acquireCallCount m, renewCallCount m, releaseCallCount m).

(** ** Concrete inputs *)

(** A store with one machine ID to lease: it records whether the lease is
    held and answers acquisition and release with fixed results. *)
Definition fixedRepo (id : Z) (aerr rerr : option error) : Repo bool :=
  mkRepo bool
    (fun _ held => ((id, aerr), match aerr with None => true | Some _ => held end))
    (fun _ _ held => (None, held))
    (fun _ _ => (rerr, false)).

(** A clock that starts at [t0] and advances by [step] per reading. *)
Definition tickClock (t0 step : Z) : Clock :=
  mkClock (fun n => t0 + Z.of_nat n * step) 0.

(** 2026-01-01T00:00:00Z *)
Definition date_2026_01_01 : Z := 1767225600 * time_Second.

(** A world whose clock starts on 2026-01-01 and advances by one
    millisecond per reading; no lease is held and nothing is logged. *)
Definition world_2026 : World bool :=
  mkWorld (tickClock date_2026_01_01 time_Millisecond) false [].

(** A world whose clock stands still at [t]. *)
Definition frozenWorld (t : Z) : World bool :=
  mkWorld (tickClock t 0) false [].

(** A world whose clock reads 2026-01-01 once and 2024-01-01 from then
    on: the wall clock was set back. *)
Definition world_set_back : World bool :=
  mkWorld (mkClock (fun n => match n with
                             | O => date_2026_01_01
                             | S _ => 1704067200 * time_Second
                             end) 0) false [].

(** An encoder library whose constructor compares the start time with the
    clock once more and fails when the start time is ahead; its methods are
    those of [Encoder]. *)
Definition checkedLib : SonyflakeLib Encoder.Sonyflake :=
  {| sonyflake_New := fun st k =>
       let '(now, k') := time_Now k in
       if After (StartTime st) now
       then (inr (errors_New "start time is ahead"), k')
       else Encoder.New st k';
     sf_NextID := Encoder.NextID;
     sf_ToTime := Encoder.ToTime;
     sf_Decompose := Encoder.Decompose |}.

(** Two invocations of [Stop], the second made while the first is inside
    the once function, around a renewal and two [NextID] calls. *)
Definition stop_twice : list Action :=
  [ActHbStart; ActHbTick; ActHbRenew; ActNextID;
   ActStopCall; ActStop 0; ActStopCall; ActStop 0;
   ActHbStop; ActHbExit; ActStop 0; ActStop 0; ActStop 0; ActStop 0;
   ActStop 1; ActStop 1; ActNextID].

(** One invocation of [Stop] that runs to its return as soon as
    [doneChan] is closed, while the heartbeat is left where it closed the
    channel. *)
Definition stop_before_exit : list Action :=
  [ActHbStart; ActStopCall; ActStop 0; ActStop 0;
   ActHbStop; ActHbExit;
   ActStop 0; ActStop 0; ActStop 0; ActStop 0].

(** The result of a construction is a Generator. *)
Definition succeeded {A B : Type} (r : A + B) : bool :=
  match r with inl _ => true | inr _ => false end.

Definition is_some {A : Type} (o : option A) : bool :=
  match o with Some _ => true | None => false end.

(** The state a schedule reaches from the Generator of a construction. *)
Definition reached {R SF : Type} `{SonyflakeLib SF} (sched : list Action)
    (r : (@Generator R SF + error) * World R) : option (@Sys R SF) :=
  match r with
  | (inl g, w) => run sched (launch g w)
  | (inr _, _) => None
  end.

(** What a schedule lets one observe of the Generator of a construction,
    of the world it was handed over in and of the state reached. *)
Definition observe {R SF A : Type} `{SonyflakeLib SF} (sched : list Action)
    (r : (@Generator R SF + error) * World R)
    (f : @Generator R SF -> World R -> @Sys R SF -> A) : option A :=
  match r with
  | (inl g, w) =>
      match run sched (launch g w) with
      | Some s => Some (f g w s)
      | None => None
      end
  | (inr _, _) => None
  end.

(** An option that leaves the clock's readings as they are. *)
Definition reads_only (o : Option) : Prop :=
  forall c k, readings (o c k).2 = readings k.

(** Three [NextID] calls in a row. *)
Definition three_ids : list Action := [ActNextID; ActNextID; ActNextID].


(** A world like [world_2026] whose store is a new [MockRepo]. *)
Definition mock_world_2026 : World MockState :=
  mkWorld (tickClock date_2026_01_01 time_Millisecond) NewMockRepo [].

(** A heartbeat that renews once, and a [NextID] call; [Stop] is not
    invoked. *)
Definition renew_once : list Action :=
  [ActHbStart; ActHbTick; ActHbRenew; ActNextID].

(** * Properties of construction *)

Lemma errors_Is_refl (e : error) : errors_Is e e = true.
Proof. destruct e; cbn; by rewrite bool_decide_eq_true_2. Qed.

Lemma errors_Is_wrap (msg : string) (inner target : error) :
  errors_Is inner target = true -> errors_Is (wrapError msg inner) target = true.
Proof. intros Hin. cbn [errors_Is]. rewrite Hin. apply orb_true_r. Qed.

Section Construction.
Context {R SF : Type} `{SonyflakeLib SF}.

Implicit Types (repo : Repo R) (w : World R) (opts : list Option).

Lemma WithTimeUnit_fails d : d < time_Millisecond -> always_fails (WithTimeUnit d).
Proof.
  intros Hd c k. unfold WithTimeUnit.
  destruct (Z.ltb_spec d time_Millisecond); [eauto | lia].
Qed.

Lemma WithTTL_fails d : d <= 0 -> always_fails (WithTTL d).
Proof.
  intros Hd c k. unfold WithTTL.
  destruct (Z.leb_spec d 0); [eauto | lia].
Qed.

Lemma WithRenewFrequency_fails d : d <= 0 -> always_fails (WithRenewFrequency d).
Proof.
  intros Hd c k. unfold WithRenewFrequency.
  destruct (Z.leb_spec d 0); [eauto | lia].
Qed.

(** The loop stops at the first failing option: a list that holds an
    always-failing option is never applied to its end. *)
Lemma applyOptions_In_fails opts o :
  In o opts -> always_fails o ->
  forall c k, exists e k', applyOptions opts c k = (inr e, k').
Proof.
  induction opts as [|o' rest IH]; intros Hin Hf c k; [destruct Hin|].
  cbn [applyOptions].
  destruct Hin as [->|Hin].
  - destruct (Hf c k) as (c' & e & k' & ->). eauto.
  - destruct (o' c k) as [[c' [e|]] k']; eauto.
Qed.

Lemma applyOptions_app pre post c k c' k' :
  applyOptions pre c k = (inl c', k') ->
  applyOptions (pre ++ post) c k = applyOptions post c' k'.
Proof.
  revert c k. induction pre as [|o rest IH]; intros c k Hpre; cbn in *.
  - by inversion Hpre.
  - destruct (o c k) as [[c1 [e|]] k1]; [discriminate|]. by apply IH.
Qed.

Lemma validateConfig_bad cfg k :
  bad_durations cfg -> exists e k', validateConfig cfg k = (Some e, k').
Proof.
  intros Hbad. unfold validateConfig, time_Now.
  destruct (After _ _); [eauto|].
  destruct (Z.ltb_spec (TimeUnit (settings cfg)) time_Millisecond); [eauto|].
  destruct (Z.leb_spec (cfg_ttl cfg) 0); [cbn; eauto|].
  destruct (Z.leb_spec (cfg_renewFreq cfg) 0); [cbn; eauto|]. cbn.
  destruct (Z.geb_spec (cfg_renewFreq cfg) (cfg_ttl cfg)); [eauto|].
  unfold bad_durations in Hbad. lia.
Qed.

Lemma validateConfig_future cfg k :
  readings k (cursor k) < StartTime (settings cfg) ->
  validateConfig cfg k = (Some ErrInvalidStartTime, snd (time_Now k)).
Proof.
  intros Hlt. unfold validateConfig, time_Now, After. cbn.
  by destruct (Z.ltb_spec (readings k (cursor k)) (StartTime (settings cfg))); [|lia].
Qed.

(** What a passing validation establishes. *)
Lemma validateConfig_ok cfg k k' :
  validateConfig cfg k = (None, k') ->
  StartTime (settings cfg) <= readings k (cursor k) /\
  time_Millisecond <= TimeUnit (settings cfg) /\
  0 < cfg_renewFreq cfg < cfg_ttl cfg /\ k' = snd (time_Now k).
Proof.
  unfold validateConfig, time_Now, After. cbn.
  destruct (Z.ltb_spec (readings k (cursor k)) (StartTime (settings cfg)));
    [discriminate|].
  destruct (Z.ltb_spec (TimeUnit (settings cfg)) time_Millisecond); [discriminate|].
  destruct (Z.leb_spec (cfg_ttl cfg) 0); [discriminate|].
  destruct (Z.leb_spec (cfg_renewFreq cfg) 0); [discriminate|]. cbn.
  destruct (Z.geb_spec (cfg_renewFreq cfg) (cfg_ttl cfg)); [discriminate|].
  intros [= <-]. repeat split; lia.
Qed.

(** A failure of the option loop ends [New] before the store is used. *)
Lemma New_option_failure repo opts w e k :
  applyOptions opts defaultGeneratorConfig (wclock w) = (inr e, k) ->
  New (Some repo) opts w = (inr e, set_clock k w).
Proof. intros Happ. unfold New. by rewrite Happ. Qed.

Lemma New_validation_failure repo opts w cfg k e k' :
  applyOptions opts defaultGeneratorConfig (wclock w) = (inl cfg, k) ->
  validateConfig cfg k = (Some e, k') ->
  New (Some repo) opts w = (inr e, set_clock k' w).
Proof. intros Happ Hval. unfold New. by rewrite Happ, Hval. Qed.

(** C4.  [New] fails on a nil repo, on an option carrying a time unit
    below 1ms or a non-positive TTL or renewal interval, and on a
    configuration whose time unit, TTL and renewal interval (among them
    renewal interval >= TTL) do not pass validation; in each of these
    cases no call reaches the coordination store: the event log and the
    store are as before, so [AcquireMachineID] was not called. *)
Theorem New_invalid_config_before_acquire (orepo : option (Repo R)) opts w :
  orepo = None \/
  (exists d, In (WithTimeUnit d) opts /\ d < time_Millisecond) \/
  (exists d, In (WithTTL d) opts /\ d <= 0) \/
  (exists d, In (WithRenewFrequency d) opts /\ d <= 0) \/
  (exists cfg k, applyOptions opts defaultGeneratorConfig (wclock w) = (inl cfg, k)
                 /\ bad_durations cfg) ->
  exists e w', New orepo opts w = (inr e, w') /\
               calls w' = calls w /\ store w' = store w.
Proof.
  intros Hbad.
  destruct orepo as [repo|]; [|cbn; eauto].
  assert (Hfail : forall o, In o opts -> always_fails o ->
                  exists e w', New (Some repo) opts w = (inr e, w') /\
                               calls w' = calls w /\ store w' = store w).
  { intros o Hin Hf.
    destruct (applyOptions_In_fails opts o Hin Hf defaultGeneratorConfig (wclock w))
      as (e & k & Happ).
    rewrite (New_option_failure _ _ _ _ _ Happ). eauto. }
  destruct Hbad as [?|[(d & Hin & Hd)|[(d & Hin & Hd)|[(d & Hin & Hd)|Hcfg]]]].
  - discriminate.
  - eapply Hfail; [exact Hin|]. by apply WithTimeUnit_fails.
  - eapply Hfail; [exact Hin|]. by apply WithTTL_fails.
  - eapply Hfail; [exact Hin|]. by apply WithRenewFrequency_fails.
  - destruct Hcfg as (cfg & k & Happ & Hcfg).
    destruct (validateConfig_bad cfg k Hcfg) as (e & k' & Hval).
    rewrite (New_validation_failure _ _ _ _ _ _ _ Happ Hval). eauto.
Qed.

(** C5, as the code has it.  A start time strictly after the clock
    reading it is compared with ends construction with an error that is
    [ErrInvalidStartTime] (wrapped when an option reports it), before any
    call to the coordination store.  The comparison is made by
    [WithStartTime] on the time it is given and by [validateConfig] on
    the configured start time. *)
Theorem New_future_start_time_rejected repo opts w :
  (exists pre post t cfg k,
      opts = pre ++ WithStartTime t :: post /\
      applyOptions pre defaultGeneratorConfig (wclock w) = (inl cfg, k) /\
      readings k (cursor k) < t) \/
  (exists cfg k,
      applyOptions opts defaultGeneratorConfig (wclock w) = (inl cfg, k) /\
      readings k (cursor k) < StartTime (settings cfg)) ->
  exists e w', New (Some repo) opts w = (inr e, w') /\
               errors_Is e ErrInvalidStartTime = true /\
               calls w' = calls w /\ store w' = store w.
Proof.
  intros [(pre & post & t & cfg & k & -> & Hpre & Hlt)|(cfg & k & Happ & Hlt)].
  - assert (Happ : applyOptions (pre ++ WithStartTime t :: post)
                     defaultGeneratorConfig (wclock w) =
                   (inr (wrapError ("apply option failed: " +:+
                                    Error ErrInvalidStartTime)
                                   ErrInvalidStartTime), snd (time_Now k))).
    { rewrite (applyOptions_app _ _ _ _ _ _ Hpre). cbn [applyOptions].
      unfold WithStartTime, time_Now, After. cbn.
      by destruct (Z.ltb_spec (readings k (cursor k)) t); [|lia]. }
    rewrite (New_option_failure _ _ _ _ _ Happ).
    eexists _, _. split; [reflexivity|]. by repeat split.
  - rewrite (New_validation_failure _ _ _ _ _ _ _ Happ
               (validateConfig_future _ _ Hlt)).
    eexists _, _. split; [reflexivity|]. by repeat split.
Qed.

(** C6.  When [AcquireMachineID] returns an error, [New] returns an error
    wrapping [ErrAcquireMachineID] and no Generator, and the acquisition
    is the only call made on the store: neither [ReleaseMachineID] nor
    [RenewMachineID] is called. *)
Theorem New_acquire_failure repo opts w cfg k k' id err st' :
  applyOptions opts defaultGeneratorConfig (wclock w) = (inl cfg, k) ->
  validateConfig cfg k = (None, k') ->
  AcquireMachineID repo (cfg_ttl cfg) (store w) = ((id, Some err), st') ->
  exists e,
    New (Some repo) opts w =
      (inr e, mkWorld k' st' (calls w ++ [EvAcquire (cfg_ttl cfg) id (Some err)])) /\
    errors_Is e ErrAcquireMachineID = true.
Proof.
  intros Happ Hval Hacq. unfold New, callAcquire.
  rewrite Happ, Hval. cbn. rewrite Hacq. eauto.
Qed.

(** C3.  When [AcquireMachineID] returns, without error, a machine ID
    that is negative or at least 65536, [New] returns an error and no
    Generator, and after the acquisition it calls [ReleaseMachineID] on
    that ID once and nothing else. *)
Theorem New_machine_id_out_of_range repo opts w cfg k k' id st' :
  applyOptions opts defaultGeneratorConfig (wclock w) = (inl cfg, k) ->
  validateConfig cfg k = (None, k') ->
  AcquireMachineID repo (cfg_ttl cfg) (store w) = ((id, None), st') ->
  id < 0 \/ id >= 65536 ->
  exists e,
    New (Some repo) opts w =
      (inr e, mkWorld k' (snd (ReleaseMachineID repo id st'))
                      (calls w ++ [EvAcquire (cfg_ttl cfg) id None;
                                   EvRelease id (fst (ReleaseMachineID repo id st'))])).
Proof.
  intros Happ Hval Hacq Hrange. unfold New, callAcquire, callRelease.
  rewrite Happ, Hval. cbn. rewrite Hacq.
  assert (Hout : (id <? 0) || (id >=? maxMachineID) = true).
  { change maxMachineID with 65536.
    destruct (Z.ltb_spec id 0); [reflexivity|].
    destruct (Z.geb_spec id 65536); [reflexivity|lia]. }
  rewrite Hout. cbn.
  destruct (ReleaseMachineID repo id st') as [rerr st'']. cbn.
  rewrite <- app_assoc. eauto.
Qed.

(** C9.  When the encoder's constructor fails after a machine ID in
    range was acquired, [New] returns an error wrapping the encoder's
    and calls [ReleaseMachineID] on the acquired ID once before
    returning. *)
Theorem New_encoder_failure_releases repo opts w cfg k k' id st' err k3 :
  applyOptions opts defaultGeneratorConfig (wclock w) = (inl cfg, k) ->
  validateConfig cfg k = (None, k') ->
  AcquireMachineID repo (cfg_ttl cfg) (store w) = ((id, None), st') ->
  0 <= id < 65536 ->
  sonyflake_New (encoder_settings cfg id) k' = (inr err, k3) ->
  exists e,
    New (Some repo) opts w =
      (inr e, mkWorld k3 (snd (ReleaseMachineID repo id st'))
                      (calls w ++ [EvAcquire (cfg_ttl cfg) id None;
                                   EvRelease id (fst (ReleaseMachineID repo id st'))])) /\
    errors_Is e err = true.
Proof.
  intros Happ Hval Hacq Hrange Hsf. unfold New, callAcquire, callRelease.
  rewrite Happ, Hval. cbn. rewrite Hacq.
  assert (Hin : (id <? 0) || (id >=? maxMachineID) = false).
  { change maxMachineID with 65536.
    destruct (Z.ltb_spec id 0); [lia|].
    destruct (Z.geb_spec id 65536); [lia|reflexivity]. }
  rewrite Hin. cbn. unfold encoder_settings in Hsf. rewrite Hsf. cbn.
  destruct (ReleaseMachineID repo id st') as [rerr st'']. cbn.
  rewrite <- app_assoc. eexists. split; [reflexivity|].
  cbn [errors_Is]. rewrite errors_Is_refl. apply orb_true_r.
Qed.

End Construction.

(** * The lease lifecycle: [Stop] against [heartbeat] *)

Lemma phase_of_snoc (evs : list Event) (e : Event) :
  phase_of (evs ++ [e]) = phase_step (phase_of evs) e.
Proof. unfold phase_of. by rewrite fold_left_app. Qed.

Lemma phase_of_app evs new :
  phase_of (evs ++ new) = fold_left phase_step new (phase_of evs).
Proof. unfold phase_of. by rewrite fold_left_app. Qed.

Lemma count_snoc (p : Event -> bool) (evs : list Event) (e : Event) :
  count p (evs ++ [e]) = (count p evs + (if p e then 1 else 0))%nat.
Proof.
  unfold count. rewrite filter_app, length_app. f_equal.
  rewrite filter_cons, filter_nil. by destruct (p e); case_decide.
Qed.

Lemma count_app (p : Event -> bool) (l1 l2 : list Event) :
  count p (l1 ++ l2) = (count p l1 + count p l2)%nat.
Proof. unfold count. by rewrite filter_app, length_app. Qed.

(** The shapes of the logs of each phase. *)
Lemma phase_Renewing evs :
  phase_of evs = Renewing -> Forall (fun e => is_renew e = true) evs.
Proof.
  induction evs as [|e evs IH] using rev_ind; [by constructor|].
  rewrite phase_of_snoc. intros Hph. apply Forall_app.
  destruct (phase_of evs), e; try discriminate; split; auto.
Qed.

Lemma phase_Signalled evs :
  phase_of evs = Signalled ->
  exists r1 r2, evs = r1 ++ EvCloseStop :: r2 /\
                Forall (fun e => is_renew e = true) r1 /\
                Forall (fun e => is_renew e = true) r2.
Proof.
  induction evs as [|e evs IH] using rev_ind; [discriminate|].
  rewrite phase_of_snoc. intros Hph.
  destruct (phase_of evs) eqn:Hprev, e as [| i t r | | | |]; try discriminate.
  - exists evs, []. split; [reflexivity|]. split; [by apply phase_Renewing|constructor].
  - destruct (IH eq_refl) as (r1 & r2 & -> & H1 & H2).
    exists r1, (r2 ++ [EvRenew i t r]). rewrite <- app_assoc. split; [reflexivity|].
    split; [assumption|]. apply Forall_app. split; [assumption|by repeat constructor].
Qed.

Lemma phase_Exited evs :
  phase_of evs = Exited ->
  exists r1 r2, evs = r1 ++ EvCloseStop :: r2 ++ [EvCloseDone] /\
                Forall (fun e => is_renew e = true) r1 /\
                Forall (fun e => is_renew e = true) r2.
Proof.
  destruct evs as [|e evs _] using rev_ind; [discriminate|].
  rewrite phase_of_snoc. intros Hph.
  destruct (phase_of evs) eqn:Hprev, e; try discriminate.
  destruct (phase_Signalled _ Hprev) as (r1 & r2 & -> & H1 & H2).
  exists r1, r2. by rewrite <- app_assoc.
Qed.

Lemma phase_Released evs :
  phase_of evs = Released ->
  exists r1 r2 id r,
    evs = r1 ++ EvCloseStop :: r2 ++ [EvCloseDone; EvRelease id r] /\
    Forall (fun e => is_renew e = true) r1 /\
    Forall (fun e => is_renew e = true) r2.
Proof.
  destruct evs as [|e evs _] using rev_ind; [discriminate|].
  rewrite phase_of_snoc. intros Hph.
  destruct (phase_of evs) eqn:Hprev, e; try discriminate.
  destruct (phase_Exited _ Hprev) as (r1 & r2 & -> & H1 & H2).
  exists r1, r2, id, err. split; [|by split].
  rewrite <- !app_assoc. cbn. by rewrite <- app_assoc.
Qed.

Lemma count_renews_release (evs : list Event) :
  Forall (fun e => is_renew e = true) evs -> count is_release evs = 0%nat.
Proof.
  induction 1 as [|e evs He _ IH]; [reflexivity|].
  unfold count in *. rewrite filter_cons. destruct e; try discriminate.
  by case_decide.
Qed.

(** Before the release no [ReleaseMachineID] is logged; in phase
    [Released] exactly one is. *)
Lemma phase_count_release evs :
  phase_of evs <> Broken ->
  count is_release evs = if decide (phase_of evs = Released) then 1%nat else 0%nat.
Proof.
  intros Hok. destruct (phase_of evs) eqn:Hph; try done.
  - case_decide; [done|]. by apply count_renews_release, phase_Renewing.
  - case_decide; [done|].
    destruct (phase_Signalled _ Hph) as (r1 & r2 & -> & H1 & H2).
    rewrite count_app, (count_renews_release _ H1).
    change (EvCloseStop :: r2) with ([EvCloseStop] ++ r2).
    by rewrite count_app, (count_renews_release _ H2).
  - case_decide; [done|].
    destruct (phase_Exited _ Hph) as (r1 & r2 & -> & H1 & H2).
    rewrite count_app, (count_renews_release _ H1).
    change (EvCloseStop :: r2 ++ [EvCloseDone])
      with ([EvCloseStop] ++ r2 ++ [EvCloseDone]).
    by rewrite !count_app, (count_renews_release _ H2).
  - case_decide; [|done].
    destruct (phase_Released _ Hph) as (r1 & r2 & id & r & -> & H1 & H2).
    rewrite count_app, (count_renews_release _ H1).
    change (EvCloseStop :: r2 ++ [EvCloseDone; EvRelease id r])
      with ([EvCloseStop] ++ r2 ++ [EvCloseDone; EvRelease id r]).
    by rewrite !count_app, (count_renews_release _ H2).
Qed.

Lemma phase_Broken_absorbs evs : fold_left phase_step evs Broken = Broken.
Proof. induction evs as [|e evs IH]; [done|]. cbn. by destruct e. Qed.

(** Nothing is logged after the release. *)
Lemma phase_Released_final evs new :
  phase_of evs = Released -> phase_of (evs ++ new) <> Broken -> new = [].
Proof.
  intros Hph. rewrite phase_of_app, Hph. destruct new as [|e new]; [done|].
  cbn. replace (phase_step Released e) with Broken by (by destruct e).
  by rewrite phase_Broken_absorbs.
Qed.

(** A logged release is the last event, and the close of [doneChan] is
    logged before it. *)
Lemma phase_release_last pre id r post :
  phase_of (pre ++ EvRelease id r :: post) <> Broken ->
  post = [] /\ phase_of pre = Exited.
Proof.
  rewrite phase_of_app. cbn. intros Hok.
  destruct (phase_of pre) eqn:Hpre; cbn in Hok;
    try (by rewrite phase_Broken_absorbs in Hok).
  split; [|done]. destruct post as [|e post]; [done|].
  cbn in Hok. replace (phase_step Released e) with Broken in Hok by (by destruct e).
  by rewrite phase_Broken_absorbs in Hok.
Qed.

Lemma phase_count_close_stop evs :
  phase_of evs <> Broken -> (count is_close_stop evs <= 1)%nat.
Proof.
  induction evs as [|e evs IH] using rev_ind; [cbn; lia|].
  rewrite phase_of_snoc, count_snoc. intros Hok.
  destruct (phase_of evs) eqn:Hph; try (by destruct e).
  - destruct e; try done; cbn.
    + specialize (IH ltac:(done)). lia.
    + pose proof (phase_Renewing _ Hph) as Hren.
      assert (count is_close_stop evs = 0%nat); [|lia].
      clear -Hren. induction Hren as [|e evs He _ IH]; [done|].
      unfold count in *. rewrite filter_cons. by destruct e; try done; case_decide.
  - destruct e; try done; cbn; specialize (IH ltac:(done)); lia.
  - destruct e; try done; cbn; specialize (IH ltac:(done)); lia.
Qed.

Section Lifecycle.
Context {R SF : Type} `{SonyflakeLib SF}.

Abbreviation Generator := (@Generator R SF).
Abbreviation Sys := (@Sys R SF).

Lemma Inv_launch (g : Generator) (w : World R) :
  fresh g -> Inv [] (launch g w).
Proof.
  intros (Hs & Hd & Ho & He & Hf).
  constructor; cbn; rewrite ?Hs, ?Hd, ?Ho, ?He; done.
Qed.

Lemma New_fresh orepo opts (w : World R) (g : Generator) w' :
  New orepo opts w = (inl g, w') -> fresh g.
Proof.
  unfold New. destruct orepo as [repo|]; [|discriminate].
  destruct (applyOptions _ _ _) as [[cfg|e] k1]; [|discriminate].
  destruct (validateConfig cfg k1) as [[e|] k2] eqn:Hval; [discriminate|].
  destruct (callAcquire _ _ _) as [[id [e|]] w1]; [discriminate|].
  destruct (_ || _).
  { destruct (callRelease _ _ _). discriminate. }
  destruct (sonyflake_New _ _) as [[enc|e] k3].
  2:{ destruct (callRelease _ _ _). discriminate. }
  intros [= <- _]. apply validateConfig_ok in Hval.
  repeat split; cbn; lia.
Qed.

Lemma lookup_insert_cases {A} (l : list A) i j x y :
  <[i:=x]> l !! j = Some y -> (j = i /\ y = x) \/ (j <> i /\ l !! j = Some y).
Proof. rewrite list_lookup_insert_Some. intros [(-> & -> & _)|[? ?]]; auto. Qed.

Lemma step_events_nil (s s' : Sys) :
  calls (world s') = calls (world s) -> step_events s s' [].
Proof. unfold step_events. intros ->. by rewrite app_nil_r. Qed.

(** Steps of the heartbeat goroutine keep the invariant. *)
Lemma heartbeat_Inv evs (s s' : Sys) a :
  Inv evs s -> heartbeat a s = Some s' ->
  exists new, step_events s s' new /\ Inv (evs ++ new) s' /\
              machineID (gen s') = machineID (gen s).
Proof.
  intros [Hal Hfr Hhb Hon Hres Hpcs Hone Hrun] Hstep.
  destruct s as [g h st idl w p]. cbn in *. unfold heartbeat in Hstep. cbn in Hstep.
  destruct a, h; try discriminate.
  - (* NewTicker *)
    destruct (Z.leb_spec (renewFreq g) 0); [lia|]. injection Hstep as <-.
    exists []. split; [by apply step_events_nil|]. rewrite app_nil_r.
    split; [|done]. constructor; cbn; try done.
    destruct (phase_of evs); cbn in *; intuition congruence.
  - (* tick *)
    injection Hstep as <-.
    exists []. split; [by apply step_events_nil|]. rewrite app_nil_r.
    split; [|done]. constructor; cbn; try done.
    destruct (phase_of evs); cbn in *; intuition congruence.
  - (* stop seen *)
    destruct (stopChan g) eqn:Hsc; [discriminate|]. injection Hstep as <-.
    exists []. split; [by apply step_events_nil|]. rewrite app_nil_r.
    split; [|done]. constructor; cbn; try done.
    rewrite Hsc. destruct (phase_of evs); cbn in *; intuition congruence.
  - (* renew *)
    unfold callRenew in Hstep.
    destruct (RenewMachineID _ _ _ _) as [err st']. injection Hstep as <-.
    eexists [_]. split; [reflexivity|]. split; [|done].
    constructor; cbn; try done; rewrite phase_of_snoc.
    + destruct (phase_of evs); cbn in *; intuition congruence.
    + destruct (phase_of evs), (stopOnce g); cbn in *; intuition congruence.
    + destruct (phase_of evs); cbn in *; intuition congruence.
    + intros j pc Hj. specialize (Hpcs _ _ Hj).
      destruct (phase_of evs), pc; cbn in *; intuition congruence.
  - (* exit *)
    destruct (doneChan g) eqn:Hdc.
    2:{ destruct (phase_of evs); cbn in *; intuition congruence. }
    injection Hstep as <-.
    eexists [_]. split; [reflexivity|]. split; [|done].
    constructor; cbn; try done; rewrite phase_of_snoc.
    + destruct (phase_of evs); cbn in *; intuition congruence.
    + destruct (phase_of evs), (stopOnce g); cbn in *; intuition congruence.
    + destruct (phase_of evs); cbn in *; intuition congruence.
    + intros j pc Hj. specialize (Hpcs _ _ Hj).
      destruct (phase_of evs), pc; cbn in *; intuition congruence.
  - (* ticker.Stop *)
    injection Hstep as <-.
    exists []. split; [by apply step_events_nil|]. rewrite app_nil_r.
    split; [|done]. constructor; cbn; try done.
    destruct (phase_of evs); cbn in *; intuition congruence.
Qed.

Ltac insert_cases H :=
  apply lookup_insert_cases in H as [[-> ->]|[? H]].

Lemma Stop_Inv evs (s s' : Sys) i pc :
  Inv evs s -> stops s !! i = Some pc -> Stop i pc s = Some s' ->
  exists new, step_events s s' new /\ Inv (evs ++ new) s' /\
              machineID (gen s') = machineID (gen s).
Proof.
  intros [Hal Hfr Hhb Hon Hres Hpcs Hone Hrun] Hi Hstep.
  destruct s as [g h st idl w p]. cbn in *.
  pose proof (Hpcs _ _ Hi) as Hpc.
  assert (Hlt : (i < length st)%nat) by (by eapply lookup_lt_Some).
  assert (Hothers : in_once pc = true ->
            forall j pc', st !! j = Some pc' -> j <> i -> in_once pc' = false).
  { intros Hin j pc' Hj Hne. destruct (in_once pc') eqn:Hin'; [|done].
    destruct Hne. by eapply Hone. }
  assert (Hquiet : stopOnce g <> OnceRunning ->
            forall j pc', st !! j = Some pc' -> in_once pc' = false).
  { intros Hno j pc' Hj. specialize (Hpcs _ _ Hj).
    destruct pc'; cbn in *; intuition congruence. }
  assert (Hone' : forall pc', (in_once pc' = true ->
                     in_once pc = true \/ stopOnce g <> OnceRunning) ->
            forall i1 i2 p1 p2, <[i:=pc']> st !! i1 = Some p1 ->
              <[i:=pc']> st !! i2 = Some p2 ->
              in_once p1 = true -> in_once p2 = true -> i1 = i2).
  { intros pc' Hok i1 i2 p1 p2 H1 H2 Hin1 Hin2.
    insert_cases H1; insert_cases H2; try done.
    - destruct (Hok Hin1) as [Hin|Hno].
      + pose proof (Hothers Hin _ _ H2 ltac:(done)). congruence.
      + pose proof (Hquiet Hno _ _ H2). congruence.
    - destruct (Hok Hin2) as [Hin|Hno].
      + pose proof (Hothers Hin _ _ H1 ltac:(done)). congruence.
      + pose proof (Hquiet Hno _ _ H1). congruence.
    - by eapply Hone. }
  assert (Hrun' : forall pc', in_once pc' = true ->
            exists i0 pc0, <[i:=pc']> st !! i0 = Some pc0 /\ in_once pc0 = true).
  { intros pc' Hin. exists i, pc'. split; [by apply list_lookup_insert_eq|done]. }
  destruct pc; cbn in Hstep, Hpc, Hothers.
  - (* stopOnce.Do *)
    destruct (stopOnce g) eqn:Ho; [|discriminate|]; injection Hstep as <-.
    + destruct Hon as [Hph Herr].
      exists []. split; [by apply step_events_nil|]. rewrite app_nil_r.
      split; [|done]. constructor; cbn; rewrite ?Ho; cbn; try done.
      * intros j pc Hj. insert_cases Hj; [done|].
        pose proof (Hpcs _ _ Hj). pose proof (Hquiet ltac:(done) _ _ Hj).
        destruct pc; cbn in *; try done; intuition congruence.
      * apply Hone'. intros _. by right.
      * intros _. by apply Hrun'.
    + exists []. split; [by apply step_events_nil|]. rewrite app_nil_r.
      split; [|done]. constructor; cbn; rewrite ?Ho; try done.
      * intros j pc Hj. insert_cases Hj; [done|]. by eapply Hpcs.
      * by apply Hone'.
  - (* close(stopChan) *)
    destruct Hpc as [Ho Hph]. rewrite Hph, Ho in *. cbn in *.
    destruct Hhb as (Hsc & Hdc & Hh1 & Hh2). rewrite Hsc in Hstep.
    injection Hstep as <-.
    eexists [_]. split; [reflexivity|]. split; [|done].
    constructor; cbn; rewrite ?phase_of_snoc, ?Hph, ?Ho; cbn; try done.
    * intros _. by apply Hon.
    * intros j pc Hj. insert_cases Hj; [cbn; by auto|].
      pose proof (Hpcs _ _ Hj). pose proof (Hothers eq_refl _ _ Hj ltac:(done)).
      destruct pc; cbn in *; try done; intuition congruence.
    * apply Hone'. by left.
    * intros _. by apply Hrun'.
  - (* receive on doneChan *)
    destruct Hpc as [Ho Hph].
    destruct (doneChan g) eqn:Hdc; [discriminate|]. injection Hstep as <-.
    assert (Hex : phase_of evs = Exited).
    { destruct Hph as [Hph|Hph]; [|done]. rewrite Hph in Hhb. cbn in Hhb.
      intuition congruence. }
    rewrite Ho in Hon. cbn in Hon.
    exists []. split; [by apply step_events_nil|]. rewrite app_nil_r.
    split; [|done]. constructor; cbn; rewrite ?Ho; cbn; try done.
    * by rewrite Hdc.
    * intros j pc Hj. insert_cases Hj; [done|].
      pose proof (Hpcs _ _ Hj) as Hold. by rewrite Ho in Hold.
    * apply Hone'. by left.
    * intros _. by apply Hrun'.
  - (* ReleaseMachineID *)
    destruct Hpc as [Ho Hph]. rewrite Hph, Ho in *. cbn in *.
    assert (Herr : stopErr g = None) by (by apply Hon).
    unfold callRelease in Hstep.
    destruct (ReleaseMachineID _ _ _) as [[e|] st'];
      injection Hstep as <-;
      (eexists [_]; split; [reflexivity|]; split; [|done]);
      (constructor; cbn; rewrite ?phase_of_snoc, ?Hph, ?Ho; cbn; try done).
    all: try (intros _; eexists evs, _; split; [reflexivity|by rewrite ?Herr]).
    all: try (apply Hone'; by left).
    all: try (intros _; by apply Hrun').
    all: intros j pc Hj; (insert_cases Hj; [cbn; by auto|]);
      pose proof (Hpcs _ _ Hj); pose proof (Hothers eq_refl _ _ Hj ltac:(done));
      destruct pc; cbn in *; try done; intuition congruence.
  - (* the once function has returned *)
    destruct Hpc as [Ho Hph]. injection Hstep as <-.
    exists []. split; [by apply step_events_nil|]. rewrite app_nil_r.
    split; [|done]. constructor; cbn; rewrite ?Ho; cbn; try done.
    * intros j pc Hj. insert_cases Hj; [done|].
      pose proof (Hpcs _ _ Hj). pose proof (Hothers eq_refl _ _ Hj ltac:(done)).
      destruct pc; cbn in *; try done; intuition congruence.
    * by apply Hone'.
  - (* return g.stopErr *)
    injection Hstep as <-.
    exists []. split; [by apply step_events_nil|]. rewrite app_nil_r.
    split; [|done]. constructor; cbn; rewrite ?Ho; cbn; try done.
    * intros j pc Hj. insert_cases Hj; [done|]. by eapply Hpcs.
    * by apply Hone'.
    * intros Hr. rewrite Hpc in Hr. discriminate.
  - discriminate.
Qed.

Lemma exec_Inv evs (s s' : Sys) a :
  Inv evs s -> exec a s = Some s' ->
  exists new, step_events s s' new /\ Inv (evs ++ new) s' /\
              machineID (gen s') = machineID (gen s).
Proof.
  intros HI Hexec. unfold exec in Hexec. rewrite (inv_alive _ _ HI) in Hexec.
  destruct a; try (by eapply heartbeat_Inv).
  - (* a new invocation of Stop *)
    injection Hexec as <-. destruct HI as [Hal Hfr Hhb Hon Hres Hpcs Hone Hrun].
    exists []. split; [by apply step_events_nil|]. rewrite app_nil_r.
    split; [|done]. constructor; cbn; try done.
    + intros j pc Hj. apply lookup_app_Some in Hj as [Hj|[_ Hj]]; [by eapply Hpcs|].
      apply list_lookup_singleton_Some in Hj as [_ <-]. done.
    + intros i j p1 p2 H1 H2 Hin1 Hin2.
      apply lookup_app_Some in H1 as [H1|[_ H1]];
        [|apply list_lookup_singleton_Some in H1 as [_ <-]; done].
      apply lookup_app_Some in H2 as [H2|[_ H2]];
        [|apply list_lookup_singleton_Some in H2 as [_ <-]; done].
      by eapply Hone.
    + intros Ho. destruct (Hrun Ho) as (i & pc & Hi & Hin).
      exists i, pc. split; [|done]. by apply lookup_app_l_Some.
  - (* a step of an invocation of Stop *)
    destruct (stops s !! i) as [pc|] eqn:Hi; [|discriminate].
    by eapply Stop_Inv.
  - (* NextID *)
    unfold NextID in Hexec.
    destruct (sf_NextID _ _) as [[r enc] k]. injection Hexec as <-.
    destruct HI as [Hal Hfr Hhb Hon Hres Hpcs Hone Hrun].
    exists []. split; [by apply step_events_nil|]. rewrite app_nil_r.
    split; [|done]. by constructor.
Qed.

(** Every state a schedule reaches from a fresh Generator satisfies the
    invariant, for the events logged on the way. *)
Lemma run_Inv sched : forall evs (s s' : Sys),
  Inv evs s -> run sched s = Some s' ->
  exists new, calls (world s') = calls (world s) ++ new /\
              Inv (evs ++ new) s' /\ machineID (gen s') = machineID (gen s).
Proof.
  induction sched as [|a rest IH]; intros evs s s' HI Hrun; cbn in Hrun.
  - injection Hrun as <-. exists []. by rewrite !app_nil_r.
  - destruct (exec a s) as [s1|] eqn:Hexec; [|discriminate].
    destruct (exec_Inv _ _ _ _ HI Hexec) as (n1 & Hev1 & HI1 & Hid1).
    destruct (IH _ _ _ HI1 Hrun) as (n2 & Hev2 & HI2 & Hid2).
    exists (n1 ++ n2). rewrite Hev2, Hev1, !app_assoc. split; [done|].
    split; [done|congruence].
Qed.

(** Every state reached from a Generator that [New] returned satisfies
    the lifecycle invariant. *)
Lemma reachable_Inv orepo opts w0 (g : Generator) w sched (s : Sys) :
  New orepo opts w0 = (inl g, w) ->
  run sched (launch g w) = Some s ->
  exists evs, calls (world s) = calls w ++ evs /\ Inv evs s /\
              machineID (gen s) = machineID g.
Proof.
  intros HN Hrun.
  destruct (run_Inv sched [] _ _ (Inv_launch g w (New_fresh _ _ _ _ _ HN)) Hrun)
    as (evs & Hcalls & HI & Hid).
  exists evs. by cbn in *.
Qed.

End Lifecycle.

(** ** Progress: a pending [Stop] can always be brought to its return *)

Lemma work_insert l i x y :
  l !! i = Some x ->
  (work (<[i:=y]> l) + once_rank x = work l + once_rank y)%nat.
Proof.
  revert i. induction l as [|a l IH]; intros [|i] Hi; try done; cbn in Hi.
  - injection Hi as ->.
    change (once_rank y + work l + once_rank x =
            once_rank x + work l + once_rank y)%nat. lia.
  - specialize (IH _ Hi).
    change (once_rank a + work (<[i:=y]> l) + once_rank x =
            once_rank a + work l + once_rank y)%nat. lia.
Qed.

Section Progress.
Context {R SF : Type} `{SonyflakeLib SF}.

Abbreviation Sys := (@Sys R SF).

(** The invocation inside the once function can take a step, or the
    heartbeat can take one towards its exit. *)
Lemma runner_progress evs (s : Sys) r pcr :
  Inv evs s -> stops s !! r = Some pcr -> in_once pcr = true ->
  (exists pc' s', exec (ActStop r) s = Some s' /\
                  stops s' = <[r:=pc']> (stops s) /\ hb s' = hb s /\
                  (pc_rank pc' < pc_rank pcr)%nat) \/
  (exists a s', exec a s = Some s' /\ stops s' = stops s /\
                (hb_rank (hb s') < hb_rank (hb s))%nat).
Proof.
  intros [Hal Hfr Hhb Hon Hres Hpcs Hone Hrun] Hr Hin.
  pose proof (Hpcs _ _ Hr) as Hpc.
  destruct s as [g h st idl w p]. cbn in *. subst p.
  unfold exec. cbn. rewrite Hr.
  destruct pcr; try discriminate; cbn in Hpc; destruct Hpc as [Ho Hph].
  - left. rewrite Hph in Hhb. destruct Hhb as (Hsc & _).
    cbn. rewrite Hsc. eexists _, _. split; [reflexivity|]. cbn. auto.
  - destruct Hph as [Hph|Hph]; rewrite Hph in Hhb; cbn in Hhb.
    + right. destruct Hhb as (Hsc & Hdc & Hts & Hh).
      destruct h; try done.
      * exists ActHbStart. cbn. destruct (Z.leb_spec (renewFreq g) 0); [lia|].
        eexists. split; [reflexivity|]. cbn. auto.
      * exists ActHbStop. cbn. rewrite Hsc.
        eexists. split; [reflexivity|]. cbn. auto.
      * exists ActHbRenew. cbn. destruct (callRenew _ _ _ _).
        eexists. split; [reflexivity|]. cbn. auto.
      * exists ActHbExit. cbn. rewrite Hdc.
        eexists. split; [reflexivity|]. cbn. auto.
    + left. destruct Hhb as (_ & Hdc & _). cbn. rewrite Hdc.
      eexists _, _. split; [reflexivity|]. cbn. auto.
  - left. cbn. destruct (callRelease _ _ _) as [[e|] w'];
      (eexists _, _; split; [reflexivity|]; cbn; auto).
  - left. cbn. eexists _, _. split; [reflexivity|]. cbn. auto.
Qed.

Lemma distance_step (s s' : Sys) i j pc pcj pc' :
  stops s !! i = Some pc -> stops s !! j = Some pcj ->
  stops s' = <[j:=pc']> (stops s) -> hb s' = hb s ->
  (pc_rank pc' < pc_rank pcj)%nat ->
  j = i \/ (pc = StopEnter /\ in_once pcj = true) ->
  (distance s' i < distance s i)%nat.
Proof.
  intros Hi Hj Hst Hhb Hlt Hcase. unfold distance, pc_at. rewrite Hst, Hhb, Hi.
  pose proof (work_insert _ _ _ pc' Hj) as Hw.
  assert (Hle : (once_rank pc' <= pc_rank pc')%nat).
  { unfold once_rank. destruct (in_once pc'); lia. }
  assert (Hle' : (once_rank pcj <= pc_rank pcj)%nat).
  { unfold once_rank. destruct (in_once pcj); lia. }
  destruct Hcase as [->|[-> Hin]].
  - rewrite list_lookup_insert_eq by (by eapply lookup_lt_Some). cbv beta iota.
    assert (pcj = pc) by congruence. subst.
    assert (pc_rank pc <= 6)%nat by (destruct pc; cbn; lia). lia.
  - destruct (decide (j = i)) as [->|Hne].
    { rewrite Hi in Hj. injection Hj as <-. discriminate. }
    rewrite list_lookup_insert_ne, Hi by done. cbv beta iota.
    unfold once_rank in Hw at 1. rewrite Hin in Hw. lia.
Qed.

Lemma progress evs (s : Sys) i pc :
  Inv evs s -> stops s !! i = Some pc -> (forall e, pc <> StopReturned e) ->
  exists a s', exec a s = Some s' /\ (distance s' i < distance s i)%nat.
Proof.
  intros HI Hi Hpend.
  assert (Hrunner : forall r pcr, stops s !! r = Some pcr -> in_once pcr = true ->
            (r = i \/ pc = StopEnter) ->
            exists a s', exec a s = Some s' /\ (distance s' i < distance s i)%nat).
  { intros r pcr Hr Hin Hri.
    destruct (runner_progress _ _ _ _ HI Hr Hin)
      as [(pc' & s' & Hex & Hst & Hhb & Hlt)|(a & s' & Hex & Hst & Hlt)].
    - exists (ActStop r), s'. split; [done|].
      eapply distance_step; eauto. destruct Hri; auto.
    - exists a, s'. split; [done|]. unfold distance, pc_at. rewrite Hst. lia. }
  assert (Hself : forall pc' (s' : Sys),
            exec (ActStop i) s = Some s' -> stops s' = <[i:=pc']> (stops s) ->
            hb s' = hb s -> (pc_rank pc' < pc_rank pc)%nat ->
            exists a s', exec a s = Some s' /\ (distance s' i < distance s i)%nat).
  { intros pc' s' Hex Hst Hhb Hlt. exists (ActStop i), s'. split; [done|].
    eapply distance_step; eauto. }
  destruct (in_once pc) eqn:Hin; [by eapply Hrunner; eauto|].
  assert (Hexec : exec (ActStop i) s = Stop i pc s).
  { unfold exec. by rewrite (inv_alive _ _ HI), Hi. }
  destruct pc; try discriminate.
  - destruct (stopOnce (gen s)) eqn:Ho.
    + eapply (Hself StopClose); [rewrite Hexec; cbn; rewrite Ho|..]; try reflexivity.
      cbn. lia.
    + destruct (inv_runner _ _ HI Ho) as (r & pcr & Hr & Hinr).
      eapply Hrunner; eauto.
    + eapply (Hself StopRet); [rewrite Hexec; cbn; rewrite Ho|..]; try reflexivity.
      cbn. lia.
  - eapply (Hself (StopReturned (stopErr (gen s)))); [rewrite Hexec; cbn|..];
      try reflexivity.
    cbn. lia.
  - by destruct (Hpend err).
Qed.

Lemma exec_keeps_invocation (s s' : Sys) a i pc :
  exec a s = Some s' -> stops s !! i = Some pc -> is_Some (stops s' !! i).
Proof.
  intros Hex Hi. apply lookup_lt_is_Some. apply lookup_lt_Some in Hi.
  unfold exec, heartbeat, Stop, NextID in Hex.
  repeat match type of Hex with
         | context [match ?x with _ => _ end] => destruct x
         end; try discriminate; injection Hex as <-; cbn;
    rewrite ?length_insert, ?length_app; lia.
Qed.

(** Under a schedule that lets it, every invocation of [Stop] returns. *)
Lemma Stop_can_return evs (s : Sys) i pc :
  Inv evs s -> stops s !! i = Some pc ->
  exists sched s' e, run sched s = Some s' /\ stops s' !! i = Some (StopReturned e).
Proof.
  remember (distance s i) as n eqn:Hn. revert evs s pc Hn.
  induction n as [n IH] using lt_wf_ind. intros evs s pc -> HI Hi.
  assert (Hcases : (exists e, pc = StopReturned e) \/ forall e, pc <> StopReturned e).
  { destruct pc; eauto. }
  destruct Hcases as [[e ->]|Hpend].
  { exists [], s, e. done. }
  destruct (progress _ _ _ _ HI Hi Hpend) as (a & s1 & Hex & Hlt).
  destruct (exec_Inv _ _ _ _ HI Hex) as (new & _ & HI1 & _).
  destruct (exec_keeps_invocation _ _ _ _ _ Hex Hi) as [pc1 Hi1].
  destruct (IH _ Hlt _ _ _ eq_refl HI1 Hi1) as (sched & s' & e & Hrun & Hret).
  exists (a :: sched), s', e. cbn. by rewrite Hex.
Qed.

End Progress.

Section StopClaims.
Context {R SF : Type} `{SonyflakeLib SF}.

Abbreviation Generator := (@Generator R SF).
Abbreviation Sys := (@Sys R SF).

(** C1.  [Stop] is idempotent.  In every state reached from a
    constructed Generator, under any schedule of any number of [Stop]
    invocations, the heartbeat and [NextID] calls: [ReleaseMachineID] has
    been called at most once and [stopChan] closed at most once; every
    invocation of [Stop] that has returned did so after the one release,
    and returned the result of that release (wrapped when it is an
    error), so all returned invocations agree; and every invocation can be
    scheduled to its return. *)
Theorem Stop_idempotent orepo opts w0 (g : Generator) w sched (s : Sys) :
  New orepo opts w0 = (inl g, w) ->
  run sched (launch g w) = Some s ->
  exists evs,
    calls (world s) = calls w ++ evs /\
    (count is_release evs <= 1)%nat /\
    (count is_close_stop evs <= 1)%nat /\
    (forall i e, stops s !! i = Some (StopReturned e) ->
       exists pre r, evs = pre ++ [EvRelease (machineID g) r] /\
                     count is_release evs = 1%nat /\ e = Stop_result r) /\
    (forall i j e1 e2, stops s !! i = Some (StopReturned e1) ->
                       stops s !! j = Some (StopReturned e2) -> e1 = e2) /\
    (forall i pc, stops s !! i = Some pc ->
       exists sched' s' e, run sched' s = Some s' /\
                           stops s' !! i = Some (StopReturned e)).
Proof.
  intros HN Hrun.
  destruct (reachable_Inv _ _ _ _ _ _ _ HN Hrun) as (evs & Hcalls & HI & Hid).
  assert (Hok : phase_of evs <> Broken).
  { intros Hbad. pose proof (inv_hb _ _ HI) as Hhb. by rewrite Hbad in Hhb. }
  assert (Hret : forall i e, stops s !! i = Some (StopReturned e) ->
            exists pre r, evs = pre ++ [EvRelease (machineID g) r] /\
                          count is_release evs = 1%nat /\ e = Stop_result r).
  { intros i e Hi. destruct (inv_pcs _ _ HI _ _ Hi) as [Ho ->].
    pose proof (inv_once _ _ HI) as Hph. rewrite Ho in Hph. cbn in Hph.
    destruct (inv_result _ _ HI Hph) as (pre & r & Hevs & Herr).
    exists pre, r. rewrite <- Hid. split; [done|]. split; [|done].
    rewrite phase_count_release by done. by case_decide. }
  exists evs. split; [done|]. split; [|split; [|split; [|split]]].
  - rewrite phase_count_release by done. case_decide; lia.
  - by apply phase_count_close_stop.
  - done.
  - intros i j e1 e2 Hi Hj.
    destruct (Hret _ _ Hi) as (pre1 & r1 & Hev1 & _ & ->).
    destruct (Hret _ _ Hj) as (pre2 & r2 & Hev2 & _ & ->).
    rewrite Hev1 in Hev2. apply app_inj_tail in Hev2 as [_ Heq]. congruence.
  - intros i pc Hi. by eapply Stop_can_return.
Qed.

(** C2 (as the code has it).  In every state reached from a constructed
    Generator: a logged [ReleaseMachineID] is the last event; by then
    [doneChan] is closed and the heartbeat goroutine has left its renewal
    loop for good, with at most its deferred [ticker.Stop()] still to run
    (it need not have exited); and the events before the release are
    renewals, the close of [stopChan], renewals, and the heartbeat's close
    of [doneChan], in this order.  Once an invocation of [Stop] has
    returned, no schedule adds an event, so [RenewMachineID] is never
    called again, and the heartbeat stays past its loop.  The step the
    heartbeat may still owe is always enabled, calls nothing and ends the
    goroutine. *)
Theorem Stop_release_after_heartbeat_loop
    orepo opts w0 (g : Generator) w sched (s : Sys) :
  New orepo opts w0 = (inl g, w) ->
  run sched (launch g w) = Some s ->
  exists evs,
    calls (world s) = calls w ++ evs /\
    (forall pre id r post, evs = pre ++ EvRelease id r :: post ->
       post = [] /\ doneChan (gen s) = Closed /\
       (hb s = HbTickerStop \/ hb s = HbDone) /\
       exists r1 r2, pre = r1 ++ EvCloseStop :: r2 ++ [EvCloseDone] /\
                     Forall (fun e => is_renew e = true) r1 /\
                     Forall (fun e => is_renew e = true) r2) /\
    (forall i e, stops s !! i = Some (StopReturned e) ->
       (hb s = HbTickerStop \/ hb s = HbDone) /\
       forall sched' s', run sched' s = Some s' ->
                         calls (world s') = calls (world s) /\
                         (hb s' = HbTickerStop \/ hb s' = HbDone)) /\
    (hb s = HbTickerStop ->
       exists s', exec ActHbTickerStop s = Some s' /\ hb s' = HbDone /\
                  world s' = world s /\ gen s' = gen s /\ stops s' = stops s).
Proof.
  intros HN Hrun.
  destruct (reachable_Inv _ _ _ _ _ _ _ HN Hrun) as (evs & Hcalls & HI & Hid).
  assert (Hok : forall evs' (s' : Sys), Inv evs' s' -> phase_of evs' <> Broken).
  { intros evs' s' HI' Hbad. pose proof (inv_hb _ _ HI') as Hhb.
    by rewrite Hbad in Hhb. }
  assert (Hpast : forall evs' (s' : Sys),
            Inv evs' s' -> phase_of evs' = Released ->
            doneChan (gen s') = Closed /\ (hb s' = HbTickerStop \/ hb s' = HbDone)).
  { intros evs' s' HI' Hph. pose proof (inv_hb _ _ HI') as Hhb.
    rewrite Hph in Hhb. by destruct Hhb as (_ & ? & ?). }
  exists evs. split; [done|]. split; [|split].
  - intros pre id r post ->.
    destruct (phase_release_last pre id r post (Hok _ _ HI)) as [-> Hpre].
    split; [done|].
    assert (Hrel : phase_of (pre ++ [EvRelease id r]) = Released).
    { rewrite phase_of_app, Hpre. done. }
    destruct (Hpast _ _ HI Hrel) as [Hdc Hh].
    split; [done|]. split; [done|].
    destruct (phase_Exited _ Hpre) as (r1 & r2 & -> & H1 & H2). eauto.
  - intros i e Hi. destruct (inv_pcs _ _ HI _ _ Hi) as [Ho _].
    pose proof (inv_once _ _ HI) as Hph. rewrite Ho in Hph. cbn in Hph.
    split; [by eapply Hpast|].
    intros sched' s' Hrun'.
    destruct (run_Inv sched' evs _ _ HI Hrun') as (new & Hcalls' & HI' & _).
    pose proof (phase_Released_final evs new Hph (Hok _ _ HI')) as ->.
    rewrite app_nil_r in *. split; [done|]. by eapply Hpast.
  - intros Hh. unfold exec, heartbeat. rewrite (inv_alive _ _ HI), Hh.
    eexists. split; [reflexivity|]. done.
Qed.

End StopClaims.

(** * Identifiers *)

Module EncoderFacts.
Import Encoder.

(** ** Bit fields *)

(** A field below [2^n] and a value shifted by [n] share no bit: their
    bitwise or is their sum. *)
Lemma lor_shiftl_add (a b n : Z) :
  0 <= n -> 0 <= b < 2 ^ n -> Z.lor (Z.shiftl a n) b = a * 2 ^ n + b.
Proof.
  intros Hn Hb.
  assert (Hdisj : Z.land (Z.shiftl a n) b = 0).
  { apply Z.bits_inj'. intros i Hi. rewrite Z.land_spec, Z.bits_0.
    destruct (Z.lt_ge_cases i n) as [Hlt|Hge].
    - by rewrite Z.shiftl_spec_low.
    - destruct (Z.eq_dec b 0) as [->|Hnz]; [by rewrite Z.bits_0, andb_false_r|].
      assert (Z.log2 b < n) by (apply Z.log2_lt_pow2; lia).
      rewrite (Z.bits_above_log2 b i) by lia. apply andb_false_r. }
  rewrite <- Z.lxor_lor by done. rewrite <- Z.add_nocarry_lxor by done.
  by rewrite Z.shiftl_mul_pow2.
Qed.

Lemma pack_sum e m q :
  0 <= m < 2 ^ 16 -> 0 <= q < 2 ^ 8 ->
  pack e m q = e * 2 ^ 24 + m * 2 ^ 8 + q.
Proof.
  intros Hm Hq. unfold pack, bitsMachine, bitsSequence.
  change (16 + 8) with 24.
  replace (Z.shiftl e 24) with (Z.shiftl (Z.shiftl e 16) 8)
    by (by rewrite Z.shiftl_shiftl).
  rewrite <- Z.shiftl_lor, (lor_shiftl_add e m 16) by lia.
  rewrite lor_shiftl_add by lia. lia.
Qed.

(** The three fields are recovered from a packed identifier. *)
Lemma pack_parts e m q :
  0 <= e -> 0 <= m < 2 ^ 16 -> 0 <= q < 2 ^ 8 ->
  timePart (pack e m q) = e /\ machinePart (pack e m q) = m /\
  sequencePart (pack e m q) = q.
Proof.
  intros He Hm Hq. rewrite pack_sum by done.
  unfold timePart, machinePart, sequencePart, bitsMachine, bitsSequence.
  change (16 + 8) with 24.
  rewrite !Z.shiftr_div_pow2, !Z.land_ones by lia.
  change (2 ^ 24) with 16777216 in *. change (2 ^ 16) with 65536 in *.
  change (2 ^ 8) with 256 in *.
  repeat split.
  - symmetry. apply (Z.div_unique _ _ _ (m * 256 + q)); lia.
  - assert ((e * 16777216 + m * 256 + q) / 256 = e * 65536 + m) as ->.
    { symmetry. apply (Z.div_unique _ _ _ q); lia. }
    symmetry. apply (Z.mod_unique _ _ e); lia.
  - symmetry. apply (Z.mod_unique _ _ (e * 65536 + m)); lia.
Qed.

Lemma pack_range e m q :
  0 <= e < 2 ^ 39 -> 0 <= m < 2 ^ 16 -> 0 <= q < 2 ^ 8 ->
  0 <= pack e m q < 2 ^ 63.
Proof. intros He Hm Hq. rewrite pack_sum by done. lia. Qed.

(** Packing is monotone in the pair (elapsed, sequence). *)
Lemma pack_lt e1 q1 e2 q2 m :
  0 <= m < 2 ^ 16 -> 0 <= q1 < 2 ^ 8 -> 0 <= q2 < 2 ^ 8 ->
  e1 < e2 \/ (e1 = e2 /\ q1 < q2) ->
  pack e1 m q1 < pack e2 m q2.
Proof. intros Hm H1 H2 Hlt. rewrite !pack_sum by done. lia. Qed.

(** ** The encoder's invariant *)

Lemma monotone_le k n m :
  monotone k -> (n <= m)%nat -> readings k n <= readings k m.
Proof.
  intros Hm Hle. induction Hle as [|m _ IH]; [lia|].
  specialize (Hm m). lia.
Qed.

Lemma monotone_sleep_until t k : monotone k -> monotone (sleep_until t k).
Proof. intros Hm n. cbn. specialize (Hm n). lia. Qed.

Lemma NextID_fields s k r s' k' :
  NextID s k = ((r, s'), k') ->
  epoch s' = epoch s /\ timeUnit s' = timeUnit s /\ machine s' = machine s.
Proof.
  unfold NextID, time_Now.
  repeat match goal with
         | |- context [if ?b then _ else _] => destruct b
         end; by intros [= <- <- <-].
Qed.

(** A successful call returns an identifier whose three fields are in
    range, with the encoder's machine ID. *)
Lemma NextID_wf s k id err s' k' :
  EncWf s -> NextID s k = (((id, err), s'), k') ->
  EncWf s' /\
  (err = None ->
   exists e q, id = pack e (machine s) q /\ 0 <= e < 2 ^ 39 /\ 0 <= q < 2 ^ 8).
Proof.
  intros [Hu Hm Hq Hl]. unfold NextID, time_Now, bitsTime, bitsSequence.
  set (now := readings k (cursor k)).
  destruct (Z.ltb_spec now (epoch s)); [by intros [= <- <- <- <-]|].
  assert (0 <= (now - epoch s) / timeUnit s) by (apply Z.div_pos; lia).
  destruct (Z.geb_spec ((now - epoch s) / timeUnit s) (2 ^ 39));
    [by intros [= <- <- <- <-]|].
  destruct (Z.eqb_spec ((now - epoch s) / timeUnit s) (lastElapsed s)).
  - destruct (Z.ltb_spec (sequence s + 1) (2 ^ 8)).
    + intros [= <- <- <- <-]. split; [constructor; cbn; lia|].
      intros _. eexists _, _. split; [reflexivity|lia].
    + destruct (Z.geb_spec (lastElapsed s + 1) (2 ^ 39));
        [by intros [= <- <- <- <-]|].
      intros [= <- <- <- <-]. split; [constructor; cbn; lia|].
      intros _. eexists _, _. split; [reflexivity|lia].
  - destruct (Z.ltb_spec (lastElapsed s) ((now - epoch s) / timeUnit s)).
    + intros [= <- <- <- <-]. split; [constructor; cbn; lia|].
      intros _. eexists _, _. split; [reflexivity|lia].
    + intros [= <- <- <- <-]. split; [done|].
      intros _. eexists _, _. split; [reflexivity|lia].
Qed.

(** Under a monotone clock a successful call moves the counters strictly
    upwards and returns their packed value; a failing call changes
    nothing. *)
Lemma NextID_key s k id err s' k' :
  EncWf s -> monotone k -> seen s k ->
  NextID s k = (((id, err), s'), k') ->
  monotone k' /\ seen s' k' /\
  match err with
  | None => id = key s' /\ key s < key s'
  | Some _ => s' = s
  end.
Proof.
  intros [Hu Hm Hq Hl] Hmono Hseen.
  unfold NextID, time_Now, bitsTime, bitsSequence.
  pose proof (Hseen (cursor k) ltac:(lia)) as Hnow.
  set (now := readings k (cursor k)) in *.
  assert (Hseen1 : seen s (mkClock (readings k) (S (cursor k)))).
  { intros n Hn. apply Hseen. cbn in Hn. lia. }
  destruct (Z.ltb_spec now (epoch s)); [by intros [= <- <- <- <-]|].
  specialize (Hnow ltac:(lia)).
  destruct (Z.geb_spec ((now - epoch s) / timeUnit s) (2 ^ 39));
    [by intros [= <- <- <- <-]|].
  destruct (Z.eqb_spec ((now - epoch s) / timeUnit s) (lastElapsed s)) as [Heq|Hne].
  - destruct (Z.ltb_spec (sequence s + 1) (2 ^ 8)).
    + intros [= <- <- <- <-]. split; [done|]. split.
      * intros n Hn He. cbn in *. rewrite Heq. apply Hseen; [lia|done].
      * split; [done|]. unfold key. cbn. apply pack_lt; lia.
    + destruct (Z.geb_spec (lastElapsed s + 1) (2 ^ 39));
        [by intros [= <- <- <- <-]|].
      intros [= <- <- <- <-]. split; [by apply monotone_sleep_until|]. split.
      * intros n Hn He. cbn in *.
        transitivity ((lastElapsed s + 1) * timeUnit s / timeUnit s).
        { rewrite Z.div_mul; lia. }
        apply Z.div_le_mono; lia.
      * split; [done|]. unfold key. cbn. apply pack_lt; lia.
  - destruct (Z.ltb_spec (lastElapsed s) ((now - epoch s) / timeUnit s)); [|lia].
    intros [= <- <- <- <-]. split; [done|]. split.
    + intros n Hn He. cbn in *.
      apply Z.div_le_mono; [lia|].
      pose proof (monotone_le k (cursor k) n Hmono ltac:(lia)). fold now in H1. lia.
    + split; [done|]. unfold key. cbn. apply pack_lt; lia.
Qed.

(** A reading inside the encoder's lifetime gives an identifier. *)
Lemma NextID_succeeds s k :
  EncWf s -> epoch s <= readings k (cursor k) ->
  (readings k (cursor k) - epoch s) / timeUnit s + 1 < 2 ^ 39 ->
  monotone k -> seen s k ->
  exists id s' k', NextID s k = (((id, None), s'), k').
Proof.
  intros [Hu Hm Hq Hl] Hnow Hlife Hmono Hseen.
  pose proof (Hseen (cursor k) ltac:(lia) Hnow) as Hle.
  unfold NextID, time_Now, bitsTime, bitsSequence.
  set (now := readings k (cursor k)) in *.
  destruct (Z.ltb_spec now (epoch s)); [lia|].
  destruct (Z.geb_spec ((now - epoch s) / timeUnit s) (2 ^ 39)); [lia|].
  destruct (Z.eqb_spec ((now - epoch s) / timeUnit s) (lastElapsed s)) as [Heq|Hne].
  - destruct (Z.ltb_spec (sequence s + 1) (2 ^ 8)); [by eauto|].
    destruct (Z.geb_spec (lastElapsed s + 1) (2 ^ 39)); [lia|by eauto].
  - destruct (Z.ltb_spec (lastElapsed s) ((now - epoch s) / timeUnit s)); by eauto.
Qed.

End EncoderFacts.
Import EncoderFacts.

Lemma successes_snoc rs id err :
  successes (rs ++ [(id, err)]) =
  successes rs ++ match err with None => [id] | Some _ => [] end.
Proof. unfold successes. rewrite omap_app. by destruct err. Qed.

Lemma StronglySorted_snoc (l : list Z) (y : Z) :
  StronglySorted Z.lt l -> Forall (fun x => x < y) l ->
  StronglySorted Z.lt (l ++ [y]).
Proof.
  induction 1 as [|x l Hl IH Hx]; intros Hy; cbn.
  - by repeat constructor.
  - apply Forall_cons in Hy as [Hxy Hy]. constructor; [by apply IH|].
    apply Forall_app. split; [done|by repeat constructor].
Qed.

Lemma StronglySorted_lt_NoDup (l : list Z) : StronglySorted Z.lt l -> NoDup l.
Proof.
  induction 1 as [|x l Hl IH Hx]; constructor; [|done].
  intros Hin. rewrite Forall_forall in Hx. specialize (Hx _ Hin). lia.
Qed.

Section Identifiers.
Context {R : Type}.

Abbreviation Generator := (@Generator R Encoder.Sonyflake).
Abbreviation Sys := (@Sys R Encoder.Sonyflake).

(** The encoder of a Generator that [New] returns. *)
Lemma New_encoder orepo opts w0 (g : Generator) w :
  New orepo opts w0 = (inl g, w) ->
  EncWf (sf g) /\ Encoder.machine (sf g) = machineID g /\ Encoder.lastElapsed (sf g) = 0 /\
  0 <= machineID g < 2 ^ 16.
Proof.
  unfold New. destruct orepo as [repo|]; [|discriminate].
  destruct (applyOptions _ _ _) as [[cfg|e] k1]; [|discriminate].
  destruct (validateConfig cfg k1) as [[e|] k2] eqn:Hval; [discriminate|].
  destruct (callAcquire _ _ _) as [[id [e|]] w1]; [discriminate|].
  destruct (_ || _) eqn:Hrange.
  { destruct (callRelease _ _ _). discriminate. }
  apply orb_false_elim in Hrange as [Hlo Hhi].
  apply Z.ltb_ge in Hlo. change maxMachineID with 65536 in Hhi.
  destruct (Z.geb_spec id 65536); [discriminate|].
  apply validateConfig_ok in Hval as (_ & Hunit & _).
  cbn [sonyflake_New Encoder.lib]. unfold Encoder.New. cbn.
  destruct (Z.ltb_spec (TimeUnit (settings cfg)) time_Millisecond).
  { destruct (callRelease _ _ _). discriminate. }
  destruct (_ || _); [destruct (callRelease _ _ _); discriminate|].
  destruct (negb _); [destruct (callRelease _ _ _); discriminate|].
  intros [= <- _]. cbn. unfold time_Millisecond in *.
  repeat split; cbn; lia.
Qed.

Lemma Inv_launch_ids orepo opts w0 (g : Generator) w :
  New orepo opts w0 = (inl g, w) -> IdInv g (launch g w).
Proof.
  intros HN. destruct (New_encoder _ _ _ _ _ HN) as (Hwf & Hm & Hl & Hr).
  constructor; cbn; first [done | by apply Forall_nil].
Qed.

Lemma Inv_launch_order orepo opts w0 (g : Generator) w :
  New orepo opts w0 = (inl g, w) -> monotone (wclock w) -> OrdInv (launch g w).
Proof.
  intros HN Hmono. destruct (New_encoder _ _ _ _ _ HN) as (Hwf & Hm & Hl & Hr).
  constructor; cbn; try done;
    try first [by apply SSorted_nil | by apply Forall_nil].
  intros n _ He. rewrite Hl. apply Z.div_pos; [lia|]. apply (enc_unit _ Hwf).
Qed.

Lemma callRenew_clock (repo : Repo R) id t (w : World R) :
  wclock (callRenew repo id t w).2 = wclock w.
Proof. unfold callRenew. by destruct (RenewMachineID _ _ _ _). Qed.

Lemma callRelease_clock (repo : Repo R) id (w : World R) :
  wclock (callRelease repo id w).2 = wclock w.
Proof. unfold callRelease. by destruct (ReleaseMachineID _ _ _). Qed.

(** Only [NextID] touches the encoder, the clock and the identifiers. *)
Lemma exec_frame a (s s' : Sys) :
  exec a s = Some s' -> a <> ActNextID ->
  sf (gen s') = sf (gen s) /\ wclock (world s') = wclock (world s) /\
  ids s' = ids s.
Proof.
  intros Hex Ha. unfold exec, heartbeat, Stop in Hex.
  destruct a; try (by destruct Ha);
    repeat match type of Hex with
           | context [callRenew ?r ?i ?t ?w] =>
               pose proof (callRenew_clock r i t w); destruct (callRenew r i t w)
           | context [callRelease ?r ?i ?w] =>
               pose proof (callRelease_clock r i w); destruct (callRelease r i w)
           | context [match ?x with _ => _ end] => destruct x
           end; try discriminate; injection Hex as <-; by cbn in *.
Qed.

Lemma exec_IdInv g0 a (s s' : Sys) :
  IdInv g0 s -> exec a s = Some s' -> IdInv g0 s'.
Proof.
  intros [Hwf Hep Hun Hma Hra Hmi] Hex.
  destruct (decide (a = ActNextID)) as [->|Ha].
  - unfold exec in Hex. destruct (panicked s); [discriminate|].
    unfold NextID in Hex. cbn [sf_NextID Encoder.lib] in Hex.
    destruct (Encoder.NextID _ _) as [[[id err] enc] k] eqn:Hnext.
    injection Hex as <-. cbn.
    destruct (NextID_fields _ _ _ _ _ Hnext) as (He & Hu & Hm).
    destruct (NextID_wf _ _ _ _ _ _ Hwf Hnext) as (Hwf' & Hid).
    constructor; cbn; try congruence.
    rewrite successes_snoc. apply Forall_app. split; [done|].
    destruct err; [constructor|]. repeat constructor.
    destruct (Hid eq_refl) as (e & q & -> & ? & ?). exists e, q.
    by rewrite <- Hma.
  - destruct (exec_frame _ _ _ Hex Ha) as (Hsf & _ & Hids).
    constructor; rewrite ?Hsf, ?Hids; done.
Qed.

Lemma exec_OrdInv g0 a (s s' : Sys) :
  IdInv g0 s -> OrdInv s -> exec a s = Some s' -> OrdInv s'.
Proof.
  intros HId [Hmono Hseen Hsort Hbelow] Hex.
  destruct (decide (a = ActNextID)) as [->|Ha].
  - unfold exec in Hex. destruct (panicked s); [discriminate|].
    unfold NextID in Hex. cbn [sf_NextID Encoder.lib] in Hex.
    destruct (Encoder.NextID _ _) as [[[id err] enc] k] eqn:Hnext.
    injection Hex as <-. cbn.
    destruct (NextID_key _ _ _ _ _ _ (id_wf _ _ HId) Hmono Hseen Hnext)
      as (Hmono' & Hseen' & Hres).
    constructor; cbn; try done; rewrite successes_snoc.
    + destruct err as [e|]; [subst enc; by rewrite app_nil_r|].
      destruct Hres as [-> Hlt]. apply StronglySorted_snoc; [done|].
      eapply Forall_impl; [exact Hbelow|]. cbn. intros x Hx. lia.
    + destruct err as [e|]; [subst enc; by rewrite app_nil_r|].
      destruct Hres as [-> Hlt]. apply Forall_app. split.
      * eapply Forall_impl; [exact Hbelow|]. cbn. intros x Hx. lia.
      * repeat constructor. lia.
  - destruct (exec_frame _ _ _ Hex Ha) as (Hsf & Hk & Hids).
    constructor; rewrite ?Hsf, ?Hk, ?Hids; done.
Qed.

Lemma run_IdInv g0 sched : forall (s s' : Sys),
  IdInv g0 s -> run sched s = Some s' -> IdInv g0 s'.
Proof.
  induction sched as [|a rest IH]; intros s s' HI Hrun; cbn in Hrun.
  - by injection Hrun as <-.
  - destruct (exec a s) as [s1|] eqn:Hex; [|discriminate].
    eapply IH; [|done]. by eapply exec_IdInv.
Qed.

Lemma run_OrdInv g0 sched : forall (s s' : Sys),
  IdInv g0 s -> OrdInv s -> run sched s = Some s' -> OrdInv s'.
Proof.
  induction sched as [|a rest IH]; intros s s' HI HO Hrun; cbn in Hrun.
  - by injection Hrun as <-.
  - destruct (exec a s) as [s1|] eqn:Hex; [|discriminate].
    eapply IH; [| |done]; [by eapply exec_IdInv|by eapply exec_OrdInv].
Qed.

(** C7.  The identifiers returned by the successful [NextID] calls on
    one Generator, in call order, are strictly increasing, hence
    pairwise distinct; the calls may be interleaved with [Stop] and the
    heartbeat.  The clock does not run backwards. *)
Theorem NextID_strictly_increasing
    orepo opts w0 (g : Generator) w sched (s : Sys) :
  New orepo opts w0 = (inl g, w) ->
  monotone (wclock w) ->
  run sched (launch g w) = Some s ->
  StronglySorted Z.lt (successes (ids s)) /\ NoDup (successes (ids s)).
Proof.
  intros HN Hmono Hrun.
  pose proof (run_OrdInv g sched _ _ (Inv_launch_ids _ _ _ _ _ HN)
                (Inv_launch_order _ _ _ _ _ HN Hmono) Hrun) as HO.
  split; [apply (ord_sorted _ HO)|].
  apply StronglySorted_lt_NoDup, (ord_sorted _ HO).
Qed.

(** C8.  Every identifier returned by a successful [NextID] call on a
    Generator decomposes to the Generator's leased machine ID, and its
    time component [t] is the one [ToTime] uses: [ToTime] is the epoch
    plus [t] time units. *)
Theorem Decompose_NextID_roundtrip
    orepo opts w0 (g : Generator) w sched (s : Sys) id :
  New orepo opts w0 = (inl g, w) ->
  run sched (launch g w) = Some s ->
  id ∈ successes (ids s) ->
  Decompose (gen s) id !! "machine-id" = Some (machineID g) /\
  Decompose (gen s) id !! "id" = Some id /\
  exists t, Decompose (gen s) id !! "time" = Some t /\ 0 <= t < 2 ^ 39 /\
            ToTime (gen s) id = Encoder.epoch (sf g) + t * Encoder.timeUnit (sf g).
Proof.
  intros HN Hrun Hin.
  pose proof (run_IdInv g sched _ _ (Inv_launch_ids _ _ _ _ _ HN) Hrun) as HI.
  pose proof (id_minted _ _ HI) as Hall. rewrite Forall_forall in Hall.
  destruct (Hall _ Hin) as (e & q & -> & He & Hq).
  destruct (pack_parts e (machineID g) q ltac:(lia) (id_range _ _ HI) Hq)
    as (Ht & Hm & _).
  unfold Decompose, ToTime. cbn [sf_Decompose sf_ToTime Encoder.lib].
  unfold Encoder.Decompose, Encoder.ToTime.
  rewrite (id_epoch _ _ HI), (id_unit _ _ HI), Ht, Hm.
  split; [done|]. split; [done|]. exists e. done.
Qed.

(** C10.  After an invocation of [Stop] has returned, [NextID] still
    works: when the clock reading it takes lies inside the encoder's
    lifetime, the call returns, without error, an identifier larger than
    every identifier returned before, carrying the machine ID whose
    release is the last event of the log; the call leaves the log, the
    store and the [Stop] invocations as they were. *)
Theorem NextID_after_Stop
    orepo opts w0 (g : Generator) w sched (s : Sys) i e :
  New orepo opts w0 = (inl g, w) ->
  monotone (wclock w) ->
  run sched (launch g w) = Some s ->
  stops s !! i = Some (StopReturned e) ->
  Encoder.epoch (sf g) <= readings (wclock (world s)) (cursor (wclock (world s))) ->
  (readings (wclock (world s)) (cursor (wclock (world s))) - Encoder.epoch (sf g))
    / Encoder.timeUnit (sf g) + 1 < 2 ^ 39 ->
  exists id s',
    exec ActNextID s = Some s' /\
    ids s' = ids s ++ [(id, None)] /\
    Encoder.machinePart id = machineID g /\
    Forall (fun old => old < id) (successes (ids s)) /\
    (exists pre r, calls (world s) = calls w ++ pre ++ [EvRelease (machineID g) r]) /\
    calls (world s') = calls (world s) /\ store (world s') = store (world s) /\
    stops s' = stops s.
Proof.
  intros HN Hmono Hrun Hi Hnow Hlife.
  pose proof (run_IdInv g sched _ _ (Inv_launch_ids _ _ _ _ _ HN) Hrun) as HI.
  pose proof (run_OrdInv g sched _ _ (Inv_launch_ids _ _ _ _ _ HN)
                (Inv_launch_order _ _ _ _ _ HN Hmono) Hrun) as HO.
  destruct (reachable_Inv _ _ _ _ _ _ _ HN Hrun) as (evs & Hcalls & HInv & Hid).
  rewrite <- (id_epoch _ _ HI) in Hnow, Hlife.
  rewrite <- (id_unit _ _ HI) in Hlife.
  destruct (NextID_succeeds _ _ (id_wf _ _ HI) Hnow Hlife
              (ord_mono _ HO) (ord_seen _ HO)) as (id & enc & k & Hnext).
  destruct (NextID_key _ _ _ _ _ _ (id_wf _ _ HI) (ord_mono _ HO)
              (ord_seen _ HO) Hnext) as (_ & _ & -> & Hlt).
  destruct (NextID_wf _ _ _ _ _ _ (id_wf _ _ HI) Hnext) as (_ & Hminted).
  destruct (Hminted eq_refl) as (el & q & Hpack & Hel & Hq).
  eexists (key enc), _. split.
  { unfold exec. rewrite (inv_alive _ _ HInv). unfold NextID.
    cbn [sf_NextID Encoder.lib]. rewrite Hnext. reflexivity. }
  cbn. split; [done|]. split.
  { rewrite Hpack, (id_machine _ _ HI).
    by destruct (pack_parts el (machineID g) q ltac:(lia) (id_range _ _ HI) Hq)
      as (_ & -> & _). }
  split.
  { eapply Forall_impl; [exact (ord_below _ HO)|]. cbn. intros x Hx. lia. }
  split; [|done].
  destruct (inv_pcs _ _ HInv _ _ Hi) as [Ho _].
  pose proof (inv_once _ _ HInv) as Hph. rewrite Ho in Hph. cbn in Hph.
  destruct (inv_result _ _ HInv Hph) as (pre & r & -> & _).
  exists pre, r. by rewrite Hcalls, Hid.
Qed.

End Identifiers.


(** * Construction, continued *)

Section ConstructionClock.
Context {R SF : Type} `{SonyflakeLib SF}.

(** [validateConfig] accepts exactly the configurations whose start time
    is not after the clock reading, whose time unit is at least 1ms and
    whose renewal interval is positive and below the TTL. *)
Lemma validateConfig_accepts cfg k :
  validateConfig cfg k = (None, (time_Now k).2) <->
  StartTime (settings cfg) <= readings k (cursor k) /\
  time_Millisecond <= TimeUnit (settings cfg) /\
  0 < cfg_renewFreq cfg < cfg_ttl cfg.
Proof.
  split.
  - intros Hval. apply validateConfig_ok in Hval. tauto.
  - intros (Hstart & Hunit & Hfreq).
    unfold validateConfig, time_Now, After. cbn.
    destruct (Z.ltb_spec (readings k (cursor k)) (StartTime (settings cfg))); [lia|].
    destruct (Z.ltb_spec (TimeUnit (settings cfg)) time_Millisecond); [lia|].
    destruct (Z.leb_spec (cfg_ttl cfg) 0); [lia|].
    destruct (Z.leb_spec (cfg_renewFreq cfg) 0); [lia|]. cbn.
    destruct (Z.geb_spec (cfg_renewFreq cfg) (cfg_ttl cfg)); [lia|done].
Qed.

Lemma WithStartTime_reads_only t : reads_only (WithStartTime t).
Proof. intros c k. unfold WithStartTime, time_Now. by destruct (After _ _). Qed.

Lemma WithTimeUnit_reads_only d : reads_only (WithTimeUnit d).
Proof. intros c k. unfold WithTimeUnit. by destruct (_ <? _). Qed.

Lemma WithTTL_reads_only d : reads_only (WithTTL d).
Proof. intros c k. unfold WithTTL. by destruct (_ <=? _). Qed.

Lemma WithRenewFrequency_reads_only d : reads_only (WithRenewFrequency d).
Proof. intros c k. unfold WithRenewFrequency. by destruct (_ <=? _). Qed.

Lemma applyOptions_readings opts : forall cfg k,
  Forall reads_only opts ->
  readings (applyOptions opts cfg k).2 = readings k.
Proof.
  induction opts as [|o rest IH]; intros cfg k Hall; [done|].
  apply Forall_cons in Hall as [Ho Hrest]. cbn [applyOptions].
  specialize (Ho cfg k). destruct (o cfg k) as [[cfg' [e|]] k']; cbn in *; [done|].
  rewrite IH by done. done.
Qed.

Lemma validateConfig_readings cfg k : readings (validateConfig cfg k).2 = readings k.
Proof.
  unfold validateConfig, time_Now.
  repeat match goal with |- context [if ?b then _ else _] => destruct b end; done.
Qed.

Lemma callAcquire_clock (repo : Repo R) t (w : World R) :
  wclock (callAcquire repo t w).2 = wclock w.
Proof. unfold callAcquire. by destruct (AcquireMachineID _ _ _) as [[? ?] ?]. Qed.

Lemma callRelease_wclock (repo : Repo R) id (w : World R) :
  wclock (callRelease repo id w).2 = wclock w.
Proof. unfold callRelease. by destruct (ReleaseMachineID _ _ _). Qed.

(** Construction reads the clock and leaves its readings as they are, when
    the options and the encoder's constructor do. *)
Lemma New_readings orepo opts (w0 : World R) :
  Forall reads_only opts ->
  (forall st k, readings (sonyflake_New st k).2 = readings k) ->
  readings (wclock (New orepo opts w0).2) = readings (wclock w0).
Proof.
  intros Hopts Hlib. unfold New. destruct orepo as [repo|]; [|done].
  pose proof (applyOptions_readings opts defaultGeneratorConfig (wclock w0) Hopts) as Ha.
  destruct (applyOptions _ _ _) as [[cfg|e] k1]; cbn in Ha; [|done].
  pose proof (validateConfig_readings cfg k1) as Hv.
  destruct (validateConfig cfg k1) as [[e|] k2]; cbn in Hv; [cbn; congruence|].
  pose proof (callAcquire_clock repo (cfg_ttl cfg) (set_clock k2 w0)) as Hq.
  destruct (callAcquire _ _ _) as [[id [e|]] w1]; cbn in Hq; [cbn; congruence|].
  destruct (_ || _).
  { pose proof (callRelease_wclock repo id w1) as Hr.
    destruct (callRelease _ _ _) as [? w2]. cbn in *. congruence. }
  match goal with |- context [sonyflake_New ?st ?k] =>
    pose proof (Hlib st k) as Hs; destruct (sonyflake_New st k) as [[enc|e] k3] end;
    cbn in Hs.
  - cbn. congruence.
  - pose proof (callRelease_wclock repo id (set_clock k3 w1)) as Hr.
    destruct (callRelease _ _ _) as [? w2]. cbn in *. congruence.
Qed.

End ConstructionClock.

Lemma Encoder_New_readings st k : readings (Encoder.New st k).2 = readings k.
Proof.
  unfold Encoder.New.
  repeat match goal with
         | |- context [if ?b then _ else _] => destruct b
         | |- context [match ?x with _ => _ end] => destruct x
         end; done.
Qed.

Lemma tickClock_monotone t0 step : 0 <= step -> monotone (tickClock t0 step).
Proof. intros Hs n. cbn. nia. Qed.

Lemma monotone_readings k k' : readings k' = readings k -> monotone k -> monotone k'.
Proof. intros Heq Hm n. rewrite Heq. apply Hm. Qed.


(** * Further properties of construction *)

Section ConstructionMore.
Context {R SF : Type} `{SonyflakeLib SF}.

Implicit Types (repo : Repo R) (w : World R) (opts : list Option).

(** X1.  [validateConfig] returns nil exactly for the configurations whose
    start time is not after the clock reading, whose time unit is at least
    1ms and whose renewal interval is positive and below the TTL. *)
Theorem validateConfig_nil_iff cfg k :
  (validateConfig cfg k).1 = None <->
  StartTime (settings cfg) <= readings k (cursor k) /\
  time_Millisecond <= TimeUnit (settings cfg) /\
  0 < cfg_renewFreq cfg < cfg_ttl cfg.
Proof.
  rewrite <- validateConfig_accepts. split.
  - intros Hnil. destruct (validateConfig cfg k) as [err k'] eqn:Hval.
    cbn in Hnil. subst err. f_equal.
    by destruct (validateConfig_ok _ _ _ Hval) as (_ & _ & _ & ->).
  - by intros ->.
Qed.

(** X2.  A successful construction: when the options and the validation pass,
    the store leases an ID in range and the encoder is built, [New] returns
    a Generator holding that ID and the configured TTL and renewal
    interval, with its channels open; it has called [AcquireMachineID] once,
    with the configured TTL, made no other call on the store, and started
    the heartbeat. *)
Theorem New_success repo opts w cfg k k' id st' enc k3 :
  applyOptions opts defaultGeneratorConfig (wclock w) = (inl cfg, k) ->
  validateConfig cfg k = (None, k') ->
  AcquireMachineID repo (cfg_ttl cfg) (store w) = ((id, None), st') ->
  0 <= id < 65536 ->
  sonyflake_New (encoder_settings cfg id) k' = (inl enc, k3) ->
  New (Some repo) opts w =
    (inl (mkGenerator enc repo id Open Open OnceFresh None
                      (cfg_ttl cfg) (cfg_renewFreq cfg)),
     mkWorld k3 st' (calls w ++ [EvAcquire (cfg_ttl cfg) id None; EvGoHeartbeat])).
Proof.
  intros Happ Hval Hacq Hrange Hsf. unfold New, callAcquire.
  rewrite Happ, Hval. cbn. rewrite Hacq.
  assert (Hin : (id <? 0) || (id >=? maxMachineID) = false).
  { change maxMachineID with 65536.
    destruct (Z.ltb_spec id 0); [lia|].
    destruct (Z.geb_spec id 65536); [lia|reflexivity]. }
  rewrite Hin. cbn. unfold encoder_settings in Hsf. rewrite Hsf.
  unfold emit, set_clock. cbn. by rewrite <- app_assoc.
Qed.

(** The events of a construction, by its outcome. *)
Lemma New_events orepo opts w :
  exists new,
    calls (New orepo opts w).2 = calls w ++ new /\
    match (New orepo opts w).1 with
    | inl g =>
        new = [EvAcquire (ttl g) (machineID g) None; EvGoHeartbeat]
    | inr _ =>
        new = [] \/
        (exists t id err, new = [EvAcquire t id (Some err)]) \/
        (exists t id r, new = [EvAcquire t id None; EvRelease id r])
    end.
Proof.
  unfold New. destruct orepo as [repo|];
    [|exists []; cbn; rewrite app_nil_r; by auto].
  destruct (applyOptions _ _ _) as [[cfg|e] k1];
    [|exists []; cbn; rewrite app_nil_r; by auto].
  destruct (validateConfig cfg k1) as [[e|] k2];
    [exists []; cbn; rewrite app_nil_r; by auto|].
  unfold callAcquire, callRelease. cbn.
  destruct (AcquireMachineID _ _ _) as [[id [e|]] st1]; cbn.
  { eexists. split; [reflexivity|]. right. left. eauto. }
  destruct (_ || _).
  { destruct (ReleaseMachineID _ _ _) as [r st2]. cbn.
    eexists. split; [by rewrite <- app_assoc|]. right. right. eauto. }
  destruct (sonyflake_New _ _) as [[enc|e] k3]; cbn.
  - eexists. split; [by rewrite <- app_assoc|]. done.
  - destruct (ReleaseMachineID _ _ _) as [r st2]. cbn.
    eexists. split; [by rewrite <- app_assoc|]. right. right. eauto.
Qed.


(** X4.  The first failing option decides the error of [New]: the error wraps
    the option's error under "apply option failed", the options after it
    are not applied, and nothing is acquired. *)
Theorem New_first_failing_option repo pre o post w cfg k c' e k' :
  applyOptions pre defaultGeneratorConfig (wclock w) = (inl cfg, k) ->
  o cfg k = ((c', Some e), k') ->
  exists err,
    New (Some repo) (pre ++ o :: post) w = (inr err, set_clock k' w) /\
    errors_Is err e = true /\
    Error err = "apply option failed: " +:+ Error e.
Proof.
  intros Hpre Ho. eexists. split; [|split].
  - apply New_option_failure. rewrite (applyOptions_app _ _ _ _ _ _ Hpre).
    cbn [applyOptions]. rewrite Ho. reflexivity.
  - cbn [errors_Is]. rewrite errors_Is_refl. apply orb_true_r.
  - reflexivity.
Qed.

(** X5.  The relation between TTL and renewal interval is checked after all
    options are applied: the two options can be given in either order. *)
Theorem New_TTL_RenewFrequency_any_order orepo pre post t r w :
  0 < t -> 0 < r ->
  New orepo (pre ++ WithTTL t :: WithRenewFrequency r :: post) w =
  New orepo (pre ++ WithRenewFrequency r :: WithTTL t :: post) w.
Proof.
  intros Ht Hr.
  assert (Hswap : forall cfg k,
            applyOptions (WithTTL t :: WithRenewFrequency r :: post) cfg k =
            applyOptions (WithRenewFrequency r :: WithTTL t :: post) cfg k).
  { intros cfg k. cbn [applyOptions]. unfold WithTTL, WithRenewFrequency.
    destruct (Z.leb_spec t 0); [lia|]. by destruct (Z.leb_spec r 0); [lia|]. }
  assert (Happ : forall cfg k,
            applyOptions (pre ++ WithTTL t :: WithRenewFrequency r :: post) cfg k =
            applyOptions (pre ++ WithRenewFrequency r :: WithTTL t :: post) cfg k).
  { induction pre as [|o rest IH]; intros cfg k; [apply Hswap|].
    cbn [app applyOptions]. destruct (o cfg k) as [[cfg' [e|]] k1]; [done|apply IH]. }
  unfold New. destruct orepo as [repo|]; [|done]. by rewrite Happ.
Qed.

End ConstructionMore.

(** * Further properties of the lifecycle *)

Section LifecycleMore.
Context {R SF : Type} `{SonyflakeLib SF}.

Abbreviation Generator := (@Generator R SF).
Abbreviation Sys := (@Sys R SF).

(** No step changes the machine ID, the TTL, the renewal interval or the
    store interface of the Generator. *)
Lemma exec_fields a (s s' : Sys) :
  exec a s = Some s' ->
  machineID (gen s') = machineID (gen s) /\ ttl (gen s') = ttl (gen s) /\
  renewFreq (gen s') = renewFreq (gen s) /\ repo (gen s') = repo (gen s).
Proof.
  intros Hex. unfold exec, heartbeat, Stop, NextID in Hex.
  repeat match type of Hex with
         | context [callRenew ?r ?i ?t ?w] => destruct (callRenew r i t w)
         | context [callRelease ?r ?i ?w] => destruct (callRelease r i w)
         | context [sf_NextID ?e ?k] => destruct (sf_NextID e k) as [[? ?] ?]
         | context [match ?x with _ => _ end] => destruct x
         end; try discriminate; injection Hex as <-; by cbn.
Qed.

(** Every event of a step is one of the Generator's own. *)
Lemma exec_own_events a (s s' : Sys) :
  exec a s = Some s' ->
  exists new, calls (world s') = calls (world s) ++ new /\
              Forall (own_event (gen s)) new.
Proof.
  intros Hex. unfold exec, heartbeat, Stop, NextID in Hex.
  destruct (panicked s); [discriminate|].
  destruct a; cbn in Hex.
  - destruct (hb s); try discriminate. destruct (_ <=? _); injection Hex as <-;
      exists []; by rewrite app_nil_r.
  - destruct (hb s); try discriminate. injection Hex as <-.
    exists []; by rewrite app_nil_r.
  - destruct (hb s); try discriminate. destruct (stopChan _); try discriminate.
    injection Hex as <-. exists []; by rewrite app_nil_r.
  - destruct (hb s); try discriminate. unfold callRenew in Hex.
    destruct (RenewMachineID _ _ _ _) as [r st]. injection Hex as <-.
    eexists [_]. split; [reflexivity|]. by repeat constructor.
  - destruct (hb s); try discriminate. destruct (doneChan _); injection Hex as <-.
    + eexists [_]. split; [reflexivity|]. by repeat constructor.
    + exists []; by rewrite app_nil_r.
  - destruct (hb s); try discriminate. injection Hex as <-.
    exists []; by rewrite app_nil_r.
  - injection Hex as <-. exists []; by rewrite app_nil_r.
  - destruct (stops s !! i) as [pc|]; [|discriminate].
    destruct pc; cbn in Hex.
    + destruct (stopOnce _); try discriminate; injection Hex as <-;
        exists []; by rewrite app_nil_r.
    + destruct (stopChan _); injection Hex as <-.
      * eexists [_]. split; [reflexivity|]. by repeat constructor.
      * exists []; by rewrite app_nil_r.
    + destruct (doneChan _); try discriminate. injection Hex as <-.
      exists []; by rewrite app_nil_r.
    + unfold callRelease in Hex. destruct (ReleaseMachineID _ _ _) as [[e|] st];
        injection Hex as <-; (eexists [_]; split; [reflexivity|]; by repeat constructor).
    + injection Hex as <-. exists []; by rewrite app_nil_r.
    + injection Hex as <-. exists []; by rewrite app_nil_r.
    + discriminate.
  - destruct (sf_NextID _ _) as [[r enc] k]. injection Hex as <-.
    exists []; by rewrite app_nil_r.
Qed.

Lemma own_event_fields (g g' : Generator) e :
  machineID g' = machineID g -> ttl g' = ttl g -> own_event g e -> own_event g' e.
Proof. intros Hm Ht. destruct e; cbn; congruence. Qed.

Lemma run_own_events sched : forall (s s' : Sys),
  run sched s = Some s' ->
  (machineID (gen s') = machineID (gen s) /\ ttl (gen s') = ttl (gen s) /\
   renewFreq (gen s') = renewFreq (gen s) /\ repo (gen s') = repo (gen s)) /\
  exists new, calls (world s') = calls (world s) ++ new /\
              Forall (own_event (gen s)) new.
Proof.
  induction sched as [|a rest IH]; intros s s' Hrun; cbn in Hrun.
  - injection Hrun as <-. split; [done|]. exists []. by rewrite app_nil_r.
  - destruct (exec a s) as [s1|] eqn:Hex; [|discriminate].
    destruct (exec_fields _ _ _ Hex) as (Hm & Ht & Hf & Hr).
    destruct (exec_own_events _ _ _ Hex) as (n1 & Hc1 & Ho1).
    destruct (IH _ _ Hrun) as ((Hm' & Ht' & Hf' & Hr') & n2 & Hc2 & Ho2).
    split; [repeat split; congruence|].
    exists (n1 ++ n2). rewrite Hc2, Hc1, app_assoc. split; [done|].
    apply Forall_app. split; [done|].
    eapply Forall_impl; [exact Ho2|]. intros e. by apply own_event_fields.
Qed.

Lemma own_renewals (g : Generator) evs :
  Forall (own_event g) evs -> Forall (fun e => is_renew e = true) evs ->
  Forall (own_renewal g) evs.
Proof.
  intros Hown Hren. induction Hown as [|e evs He _ IH]; [constructor|].
  apply Forall_cons in Hren as [Hr Hren]. constructor; [|by apply IH].
  destruct e; try discriminate. destruct He as [-> ->]. by eexists.
Qed.

(** While no invocation of [Stop] exists, the once is fresh. *)
Lemma exec_no_stop a (s s' : Sys) :
  (stops s = [] -> stopOnce (gen s) = OnceFresh) ->
  exec a s = Some s' ->
  stops s' = [] -> stopOnce (gen s') = OnceFresh.
Proof.
  intros HJ Hex Hnil. unfold exec, heartbeat, NextID in Hex.
  destruct (panicked s); [discriminate|].
  destruct a; cbn in Hex;
    try (repeat match type of Hex with
                | context [callRenew ?r ?i ?t ?w] => destruct (callRenew r i t w)
                | context [sf_NextID ?e ?k] => destruct (sf_NextID e k) as [[? ?] ?]
                | context [match ?x with _ => _ end] => destruct x
                end; try discriminate; injection Hex as <-; cbn in *; by auto).
  - injection Hex as <-. cbn in Hnil. by destruct (stops s).
  - destruct (stops s !! i) as [pc|] eqn:Hi; [|discriminate].
    apply lookup_lt_Some in Hi.
    assert (length (stops s') = length (stops s)) as Hlen.
    { unfold Stop in Hex.
      repeat match type of Hex with
             | context [callRelease ?r ?i ?w] => destruct (callRelease r i w)
             | context [match ?x with _ => _ end] => destruct x
             end; try discriminate; injection Hex as <-; cbn;
        by rewrite ?length_insert. }
    rewrite Hnil in Hlen. cbn in Hlen. lia.
Qed.

Lemma run_no_stop sched : forall (s s' : Sys),
  (stops s = [] -> stopOnce (gen s) = OnceFresh) ->
  run sched s = Some s' ->
  stops s' = [] -> stopOnce (gen s') = OnceFresh.
Proof.
  induction sched as [|a rest IH]; intros s s' HJ Hrun; cbn in Hrun.
  - by injection Hrun as <-.
  - destruct (exec a s) as [s1|] eqn:Hex; [|discriminate].
    eapply IH; [|done]. by eapply exec_no_stop.
Qed.

(** X6.  No runtime panic.  In no state reached from a constructed Generator
    has a goroutine panicked: neither channel is ever closed twice and the
    ticker is created with a positive period. *)
Theorem lifecycle_never_panics orepo opts w0 (g : Generator) w sched (s : Sys) :
  New orepo opts w0 = (inl g, w) ->
  run sched (launch g w) = Some s ->
  panicked s = false.
Proof.
  intros HN Hrun.
  destruct (reachable_Inv _ _ _ _ _ _ _ HN Hrun) as (evs & _ & HI & _).
  apply (inv_alive _ _ HI).
Qed.

(** X7.  Until [Stop] is invoked the lease is kept: as long as no invocation
    of [Stop] exists, [stopChan] is open, the heartbeat goroutine has not
    returned, and every event logged since construction is a renewal of
    the Generator's machine ID with its TTL. *)
Theorem heartbeat_runs_until_Stop orepo opts w0 (g : Generator) w sched (s : Sys) :
  New orepo opts w0 = (inl g, w) ->
  run sched (launch g w) = Some s ->
  stops s = [] ->
  stopChan (gen s) = Open /\
  hb s <> HbReturn /\ hb s <> HbTickerStop /\ hb s <> HbDone /\
  exists evs, calls (world s) = calls w ++ evs /\ Forall (own_renewal g) evs.
Proof.
  intros HN Hrun Hnil.
  destruct (reachable_Inv _ _ _ _ _ _ _ HN Hrun) as (evs & Hcalls & HI & _).
  pose proof (New_fresh _ _ _ _ _ HN) as (_ & _ & Ho & _).
  assert (Hfresh : stopOnce (gen s) = OnceFresh).
  { eapply run_no_stop; [|exact Hrun|exact Hnil]. by intros _. }
  pose proof (inv_once _ _ HI) as Hon. rewrite Hfresh in Hon. destruct Hon as [Hph _].
  pose proof (inv_hb _ _ HI) as Hhb. rewrite Hph in Hhb.
  destruct Hhb as (Hsc & _ & Hh1 & Hh2 & Hh3).
  repeat split; try done.
  exists evs. split; [done|].
  destruct (run_own_events _ _ _ Hrun) as (_ & new & Hnew & Hown).
  cbn in Hnew. rewrite Hcalls in Hnew. apply app_inv_head in Hnew as <-.
  apply own_renewals; [done|]. by apply phase_Renewing.
Qed.

(** X8.  A failed renewal does not end the heartbeat: while [stopChan] is open
    the heartbeat can always be scheduled to its next [RenewMachineID], for
    the Generator's machine ID and TTL, whatever the earlier renewals
    returned. *)
Theorem heartbeat_renews_again orepo opts w0 (g : Generator) w sched (s : Sys) :
  New orepo opts w0 = (inl g, w) ->
  run sched (launch g w) = Some s ->
  stopChan (gen s) = Open ->
  exists sched' s' r,
    run sched' s = Some s' /\
    calls (world s') = calls (world s) ++ [EvRenew (machineID g) (ttl g) r].
Proof.
  intros HN Hrun Hopen.
  destruct (reachable_Inv _ _ _ _ _ _ _ HN Hrun) as (evs & Hcalls & HI & Hid).
  destruct (run_own_events _ _ _ Hrun) as ((_ & Httl & _) & _). cbn in Httl.
  pose proof (inv_alive _ _ HI) as Hal. pose proof (inv_freq _ _ HI) as Hfr.
  pose proof (inv_hb _ _ HI) as Hhb.
  assert (Hh : hb s <> HbReturn /\ hb s <> HbTickerStop /\ hb s <> HbDone).
  { destruct (phase_of evs); cbn in Hhb; try done; destruct Hhb as (Hsc & Hrest);
      try congruence. by destruct Hrest as (_ & ? & ? & ?). }
  destruct Hh as (Hh1 & Hh2 & Hh3).
  destruct (callRenew (repo (gen s)) (machineID (gen s)) (ttl (gen s)) (world s))
    as [r w1] eqn:Hcall.
  assert (Hw1 : calls w1 = calls (world s) ++ [EvRenew (machineID g) (ttl g) r]).
  { unfold callRenew in Hcall. destruct (RenewMachineID _ _ _ _) as [r' st].
    injection Hcall as <- <-. cbn. by rewrite Hid, Httl. }
  destruct s as [g1 h st idl w1' p]. cbn in *. subst p.
  destruct h; try done.
  - exists [ActHbStart; ActHbTick; ActHbRenew]. cbn. unfold exec, heartbeat. cbn.
    destruct (Z.leb_spec (renewFreq g1) 0); [lia|]. cbn. rewrite Hcall. cbn.
    eexists _, r. split; [reflexivity|]. done.
  - exists [ActHbTick; ActHbRenew]. cbn. unfold exec, heartbeat. cbn.
    rewrite Hcall. cbn. eexists _, r. split; [reflexivity|]. done.
  - exists [ActHbRenew]. cbn. unfold exec, heartbeat. cbn.
    rewrite Hcall. cbn. eexists _, r. split; [reflexivity|]. done.
Qed.

(** X9.  What [Stop] returns: nil when [ReleaseMachineID] returned nil;
    otherwise an error that wraps [ErrReleaseMachineID] and whose text is
    that sentinel's, a colon and the text of the release error. *)
Theorem Stop_returns_release_outcome
    orepo opts w0 (g : Generator) w sched (s : Sys) i e :
  New orepo opts w0 = (inl g, w) ->
  run sched (launch g w) = Some s ->
  stops s !! i = Some (StopReturned e) ->
  exists pre r,
    calls (world s) = calls w ++ pre ++ [EvRelease (machineID g) r] /\
    match r with
    | None => e = None
    | Some cause =>
        exists err, e = Some err /\ errors_Is err ErrReleaseMachineID = true /\
                    Error err = "failed to release machine ID: " +:+ Error cause
    end.
Proof.
  intros HN Hrun Hi.
  destruct (reachable_Inv _ _ _ _ _ _ _ HN Hrun) as (evs & Hcalls & HI & Hid).
  destruct (inv_pcs _ _ HI _ _ Hi) as [Ho ->].
  pose proof (inv_once _ _ HI) as Hph. rewrite Ho in Hph. cbn in Hph.
  destruct (inv_result _ _ HI Hph) as (pre & r & -> & Herr).
  exists pre, r. rewrite Hcalls, Hid. split; [done|].
  rewrite Herr. destruct r as [cause|]; [|done].
  eexists. split; [reflexivity|]. split; [|reflexivity].
  apply errors_Is_wrap, errors_Is_refl.
Qed.

(** X10.  The whole log of a Generator's life, from construction to the return
    of [Stop]: one acquisition, the start of the heartbeat, renewals, the
    close of [stopChan], renewals, the close of [doneChan], and the release
    of the ID that was acquired.  Every renewal is for that ID, with the
    TTL of the acquisition. *)
Theorem lifecycle_log orepo opts w0 (g : Generator) w sched (s : Sys) i e :
  New orepo opts w0 = (inl g, w) ->
  run sched (launch g w) = Some s ->
  stops s !! i = Some (StopReturned e) ->
  exists r1 r2 r,
    calls (world s) =
      calls w0 ++ [EvAcquire (ttl g) (machineID g) None; EvGoHeartbeat]
              ++ r1 ++ [EvCloseStop] ++ r2
              ++ [EvCloseDone; EvRelease (machineID g) r] /\
    Forall (own_renewal g) r1 /\ Forall (own_renewal g) r2.
Proof.
  intros HN Hrun Hi.
  destruct (reachable_Inv _ _ _ _ _ _ _ HN Hrun) as (evs & Hcalls & HI & Hid).
  destruct (inv_pcs _ _ HI _ _ Hi) as [Ho _].
  pose proof (inv_once _ _ HI) as Hph. rewrite Ho in Hph. cbn in Hph.
  destruct (inv_result _ _ HI Hph) as (pre & r & Hevs & _).
  destruct (phase_Released _ Hph) as (r1 & r2 & id & r' & Hshape & H1 & H2).
  destruct (run_own_events _ _ _ Hrun) as (_ & new & Hnew & Hown).
  cbn in Hnew. rewrite Hcalls in Hnew. apply app_inv_head in Hnew as <-.
  assert (id = machineID g /\ r' = r) as [-> ->].
  { rewrite Hshape in Hevs. rewrite Hid in Hevs.
    replace (r1 ++ EvCloseStop :: r2 ++ [EvCloseDone; EvRelease id r'])
      with ((r1 ++ EvCloseStop :: r2 ++ [EvCloseDone]) ++ [EvRelease id r']) in Hevs
      by (by rewrite <- !app_assoc; cbn; rewrite <- app_assoc).
    apply app_inj_tail in Hevs as [_ [= -> ->]]. done. }
  rewrite Hshape in Hown.
  apply Forall_app in Hown as [Hown1 Hown2].
  apply Forall_cons in Hown2 as [_ Hown2]. apply Forall_app in Hown2 as [Hown2 _].
  exists r1, r2, r. split; [|split; by apply own_renewals].
  rewrite Hcalls, Hshape.
  destruct (New_events orepo opts w0) as (new & Hlog & Hkind).
  rewrite HN in Hlog, Hkind. cbn in Hlog, Hkind. subst new.
  rewrite Hlog. by rewrite <- !app_assoc.
Qed.

End LifecycleMore.

(** * The test double *)

Lemma first_free_spec n : forall i pool,
  match first_free n i pool with
  | Some j => i <= j < i + Z.of_nat n /\ pooled pool j = false /\
              forall l, i <= l < j -> pooled pool l = true
  | None => forall l, i <= l < i + Z.of_nat n -> pooled pool l = true
  end.
Proof.
  induction n as [|n IH]; intros i pool; cbn [first_free].
  - intros l Hl. lia.
  - destruct (pooled pool i) eqn:Hi; cbn [negb].
    + specialize (IH (i + 1) pool). destruct (first_free n (i + 1) pool) as [j|].
      * destruct IH as (Hj & Hfree & Hbelow). split; [lia|]. split; [done|].
        intros l Hl. destruct (decide (l = i)) as [->|Hne]; [done|]. apply Hbelow. lia.
      * intros l Hl. destruct (decide (l = i)) as [->|Hne]; [done|]. apply IH. lia.
    + split; [lia|]. split; [done|]. intros l Hl. lia.
Qed.


(** A successful default acquisition takes an ID that was not in the pool
    and puts it there. *)
Lemma MockRepo_acquire_pool rf lf ttl m :
  let '((id, err), m') := AcquireMachineID (MockRepo None rf lf) ttl m in
  err = None ->
  pooled (machineIDPool m) id = false /\
  machineIDPool m' = <[id := true]> (machineIDPool m).
Proof.
  cbn. pose proof (first_free_spec (Z.to_nat 65536) 0 (machineIDPool m)) as Hspec.
  destruct (first_free _ _ _) as [j|]; cbn; [|discriminate].
  intros _. by destruct Hspec as (_ & ? & _).
Qed.

(** X11.  The default acquisition of [MockRepo] leases the smallest machine ID
    of 0..65535 that is not in the pool and puts it in the pool; it fails
    only when all 65536 IDs are in the pool.  Either way it counts the
    call. *)
Theorem MockRepo_acquire_smallest_free renewFunc releaseFunc ttl m :
  let '((id, err), m') :=
    AcquireMachineID (MockRepo None renewFunc releaseFunc) ttl m in
  acquireCallCount m' = acquireCallCount m + 1 /\
  match err with
  | None =>
      0 <= id < 65536 /\ pooled (machineIDPool m) id = false /\
      (forall l, 0 <= l < id -> pooled (machineIDPool m) l = true) /\
      machineIDPool m' = <[id := true]> (machineIDPool m)
  | Some _ =>
      machineIDPool m' = machineIDPool m /\
      forall l, 0 <= l < 65536 -> pooled (machineIDPool m) l = true
  end.
Proof.
  cbn. pose proof (first_free_spec (Z.to_nat 65536) 0 (machineIDPool m)) as Hspec.
  destruct (first_free _ _ _) as [j|]; cbn; (split; [done|]).
  - destruct Hspec as (Hj & Hfree & Hbelow). repeat split; try done; lia.
  - split; [done|]. intros l Hl. apply Hspec. lia.
Qed.

(** X12.  A machine ID released by the default release of [MockRepo] can be
    leased again: the next default acquisition succeeds, with an ID that
    is not larger. *)
Theorem MockRepo_release_then_acquire af rf id ttl m :
  0 <= id < 65536 ->
  let m1 := (ReleaseMachineID (MockRepo af rf None) id m).2 in
  exists j m2,
    AcquireMachineID (MockRepo None rf None) ttl m1 = ((j, None), m2) /\
    0 <= j <= id.
Proof.
  intros Hid. cbn.
  pose proof (first_free_spec (Z.to_nat 65536) 0 (delete id (machineIDPool m))) as Hspec.
  assert (Hfree : pooled (delete id (machineIDPool m)) id = false).
  { unfold pooled. by rewrite lookup_delete_eq. }
  destruct (first_free _ _ _) as [j|].
  - destruct Hspec as (Hj & _ & Hbelow). eexists _, _. split; [reflexivity|].
    split; [lia|]. destruct (Z.le_gt_cases j id) as [|Hgt]; [done|].
    rewrite Hbelow in Hfree by lia. discriminate.
  - rewrite Hspec in Hfree by lia. discriminate.
Qed.

Section MockGenerators.
Context {SF : Type} `{SonyflakeLib SF}.

Abbreviation Generator := (@Generator MockState SF).
Abbreviation Sys := (@Sys MockState SF).

Lemma run_stops_length sched : forall (s s' : Sys),
  run sched s = Some s' -> (length (stops s) <= length (stops s'))%nat.
Proof.
  induction sched as [|a rest IH]; intros s s' Hrun; cbn in Hrun.
  - by injection Hrun as <-.
  - destruct (exec a s) as [s1|] eqn:Hex; [|discriminate].
    specialize (IH _ _ Hrun). etrans; [|exact IH].
    clear -Hex. unfold exec, heartbeat, Stop, NextID in Hex.
    repeat match type of Hex with
           | context [callRenew ?r ?i ?t ?w] => destruct (callRenew r i t w)
           | context [callRelease ?r ?i ?w] => destruct (callRelease r i w)
           | context [sf_NextID ?e ?k] => destruct (sf_NextID e k) as [[? ?] ?]
           | context [match ?x with _ => _ end] => destruct x
           end; try discriminate; injection Hex as <-; cbn;
      rewrite ?length_insert, ?length_app; lia.
Qed.

(** While no [Stop] is invoked, the pool of a [MockRepo] with the default
    renewal stays as construction left it. *)
Lemma run_pool_unchanged af lf sched : forall (s s' : Sys),
  repo (gen s) = MockRepo af None lf ->
  run sched s = Some s' -> stops s' = [] ->
  machineIDPool (store (world s')) = machineIDPool (store (world s)).
Proof.
  induction sched as [|a rest IH]; intros s s' Hrepo Hrun Hnil; cbn in Hrun.
  - by injection Hrun as <-.
  - destruct (exec a s) as [s1|] eqn:Hex; [|discriminate].
    pose proof (run_stops_length _ _ _ Hrun) as Hlen. rewrite Hnil in Hlen.
    assert (Hnil1 : stops s1 = []) by (destruct (stops s1); [done|cbn in Hlen; lia]).
    destruct (exec_fields _ _ _ Hex) as (_ & _ & _ & Hr).
    rewrite (IH s1 s') by (congruence || done).
    clear -Hex Hnil1 Hrepo. unfold exec, heartbeat, NextID in Hex.
    destruct (panicked s); [discriminate|].
    destruct a; cbn in Hex.
    + destruct (hb s); try discriminate. by destruct (_ <=? _); injection Hex as <-.
    + destruct (hb s); try discriminate. by injection Hex as <-.
    + destruct (hb s); try discriminate. destruct (stopChan _); try discriminate.
      by injection Hex as <-.
    + destruct (hb s); try discriminate. unfold callRenew in Hex. rewrite Hrepo in Hex.
      cbn in Hex. by injection Hex as <-.
    + destruct (hb s); try discriminate. by destruct (doneChan _); injection Hex as <-.
    + destruct (hb s); try discriminate. by injection Hex as <-.
    + injection Hex as <-. cbn in Hnil1. by destruct (stops s).
    + destruct (stops s !! i) as [pc|] eqn:Hi; [|discriminate].
      exfalso. apply lookup_lt_Some in Hi.
      assert (length (stops s1) = length (stops s)) as Hlen.
      { unfold Stop in Hex.
        repeat match type of Hex with
               | context [callRelease ?r ?i ?w] => destruct (callRelease r i w)
               | context [match ?x with _ => _ end] => destruct x
               end; try discriminate; injection Hex as <-; cbn;
          by rewrite ?length_insert. }
      rewrite Hnil1 in Hlen. cbn in Hlen. lia.
    + destruct (sf_NextID _ _) as [[r enc] k]. by injection Hex as <-.
Qed.

(** What a construction on a [MockRepo] with the default acquisition does
    to the pool: the Generator's machine ID was not in it and is now. *)
Lemma New_mock_pool rf lf opts (w0 : World MockState) (g : Generator) w :
  New (Some (MockRepo None rf lf)) opts w0 = (inl g, w) ->
  pooled (machineIDPool (store w0)) (machineID g) = false /\
  machineIDPool (store w) = <[machineID g := true]> (machineIDPool (store w0)) /\
  repo g = MockRepo None rf lf.
Proof.
  unfold New.
  destruct (applyOptions _ _ _) as [[cfg|e] k1]; [|discriminate].
  destruct (validateConfig cfg k1) as [[e|] k2]; [discriminate|].
  unfold callAcquire.
  pose proof (MockRepo_acquire_pool rf lf (cfg_ttl cfg) (store (set_clock k2 w0))) as Hacq.
  destruct (AcquireMachineID _ _ _) as [[id [e|]] st1]; [discriminate|].
  destruct (Hacq eq_refl) as (Hfree & Hpool). cbn in Hfree, Hpool.
  destruct (_ || _); [by destruct (callRelease _ _ _)|].
  destruct (sonyflake_New _ _) as [[enc|e] k3]; [|by destruct (callRelease _ _ _)].
  intros [= <- <-]. done.
Qed.

(** X13.  Two Generators built on one [MockRepo], the second while the first has
    not been stopped, get different machine IDs. *)
Theorem MockRepo_generators_distinct
    lf opts1 opts2 (w0 : World MockState) (g1 g2 : Generator) w1 sched (s : Sys) w2 :
  New (Some (MockRepo None None lf)) opts1 w0 = (inl g1, w1) ->
  run sched (launch g1 w1) = Some s ->
  stops s = [] ->
  New (Some (MockRepo None None lf)) opts2 (world s) = (inl g2, w2) ->
  machineID g1 <> machineID g2.
Proof.
  intros HN1 Hrun Hnil HN2.
  destruct (New_mock_pool _ _ _ _ _ _ HN1) as (_ & Hpool1 & Hrepo).
  destruct (New_mock_pool _ _ _ _ _ _ HN2) as (Hfree2 & _ & _).
  rewrite (run_pool_unchanged None lf sched (launch g1 w1) s Hrepo Hrun Hnil) in Hfree2.
  cbn in Hfree2. rewrite Hpool1 in Hfree2. intros Heq. rewrite <- Heq in Hfree2.
  unfold pooled in Hfree2. rewrite lookup_insert_eq in Hfree2. discriminate.
Qed.

End MockGenerators.

(** * The theorems at concrete inputs *)

(** A construction that succeeds, followed by a schedule that runs, gives
    the Generator, the world and the state reached. *)
Ltac construct_and_run HN Hrun :=
  let Hb := fresh "Hb" in
  match goal with
  | |- context [New ?r ?o ?w0] =>
      destruct (New r o w0) as [[?g|?e] ?w] eqn:HN;
      [|exfalso;
        assert (Hb : succeeded (fst (New r o w0)) = true) by (vm_compute; reflexivity);
        rewrite HN in Hb; discriminate]
  end;
  match goal with
  | |- context [run ?sched (launch ?g ?w)] =>
      destruct (run sched (launch g w)) as [?s|] eqn:Hrun;
      [|exfalso;
        match type of HN with
        | ?new = _ =>
            assert (Hb : is_some (reached sched new) = true) by (vm_compute; reflexivity);
            rewrite HN in Hb; unfold reached in Hb; rewrite Hrun in Hb; discriminate
        end]
  end.

(** A fact about the Generator, the world and the state reached, decided
    by evaluation. *)
Ltac observed HN Hrun f H :=
  match type of HN with
  | ?new = _ =>
      match type of Hrun with
      | run ?sched _ = _ =>
          assert (H : observe sched new f = Some true) by (vm_compute; reflexivity);
          rewrite HN in H; unfold observe in H; rewrite Hrun in H;
          injection H as H
      end
  end.

Lemma Stop_idempotent_witness :
  match New (Some (fixedRepo 7 None None)) [] world_2026 with
  | (inl g, w) =>
      match run stop_twice (launch g w) with
      | Some s => exists evs, calls (world s) = calls w ++ evs /\
                              (count is_release evs <= 1)%nat
      | None => False
      end
  | (inr _, _) => False
  end.
Proof.
  construct_and_run HN Hrun.
  destruct (Stop_idempotent _ _ _ _ _ _ _ HN Hrun) as (evs & Hcalls & Hle & _).
  eauto.
Defined.

Lemma Stop_release_after_heartbeat_loop_witness :
  match New (Some (fixedRepo 7 None (Some (errors_New "connection refused"))))
            [WithTTL time_Second; WithRenewFrequency (100 * time_Millisecond)]
            world_2026 with
  | (inl g, w) =>
      match run stop_twice (launch g w) with
      | Some s =>
          (hb s = HbTickerStop \/ hb s = HbDone) /\
          forall sched' s', run sched' s = Some s' ->
                            calls (world s') = calls (world s) /\
                            (hb s' = HbTickerStop \/ hb s' = HbDone)
      | None => False
      end
  | (inr _, _) => False
  end.
Proof.
  construct_and_run HN Hrun.
  destruct (Stop_release_after_heartbeat_loop _ _ _ _ _ _ _ HN Hrun)
    as (evs & _ & _ & Hafter & _).
  observed HN Hrun
    (fun (g : @Generator bool Encoder.Sonyflake) (w : World bool)
         (s : @Sys bool Encoder.Sonyflake) =>
       bool_decide (stops s !! 1%nat =
                    Some (StopReturned (Stop_result (Some (errors_New "connection refused"))))))
    H1.
  apply bool_decide_eq_true_1 in H1. exact (Hafter _ _ H1).
Defined.

(** [Stop] has called [ReleaseMachineID] and returned while the heartbeat
    goroutine still has its deferred [ticker.Stop()] to run: it has not
    exited. *)
Lemma Stop_returns_before_heartbeat_exit :
  observe stop_before_exit
    (New (Some (fixedRepo 7 None None)) [] world_2026)
    (fun (g : @Generator bool Encoder.Sonyflake) (w : World bool)
         (s : @Sys bool Encoder.Sonyflake) =>
       (drop (length (calls w)) (calls (world s)), hb s, stops s)) =
  Some ([EvCloseStop; EvCloseDone; EvRelease 7 None],
        HbTickerStop, [StopReturned None]).
Proof. vm_compute. reflexivity. Qed.

Lemma New_machine_id_out_of_range_witness :
  exists e,
    New (Some (fixedRepo 65536 None None)) [] world_2026 =
      (inr e, mkWorld (time_Now (wclock world_2026)).2 false
                      [EvAcquire (30 * time_Second) 65536 None; EvRelease 65536 None]).
Proof.
  apply (New_machine_id_out_of_range (fixedRepo 65536 None None) [] world_2026
           defaultGeneratorConfig (wclock world_2026) (time_Now (wclock world_2026)).2
           65536 true).
  - reflexivity.
  - apply validateConfig_accepts; vm_compute; repeat split; discriminate.
  - reflexivity.
  - right. lia.
Defined.

Lemma New_invalid_config_before_acquire_witness :
  exists e w',
    New (Some (fixedRepo 7 None None))
        [WithTTL (10 * time_Second); WithRenewFrequency (10 * time_Second)]
        world_2026 = (inr e, w') /\
    calls w' = calls world_2026 /\ store w' = store world_2026.
Proof.
  apply New_invalid_config_before_acquire.
  right; right; right; right.
  exists (mkConfig (settings defaultGeneratorConfig) (10 * time_Second) (10 * time_Second)),
         (wclock world_2026).
  split; [reflexivity|]. unfold bad_durations. cbn. lia.
Defined.

Lemma New_future_start_time_rejected_witness :
  exists e w',
    New (Some (fixedRepo 7 None None))
        [WithTimeUnit time_Millisecond;
         WithStartTime (date_2026_01_01 + 24 * 3600 * time_Second)]
        world_2026 = (inr e, w') /\
    errors_Is e ErrInvalidStartTime = true /\
    calls w' = calls world_2026 /\ store w' = store world_2026.
Proof.
  apply New_future_start_time_rejected. left.
  exists [WithTimeUnit time_Millisecond], [],
         (date_2026_01_01 + 24 * 3600 * time_Second),
         (set_TimeUnit time_Millisecond defaultGeneratorConfig), (wclock world_2026).
  split; [reflexivity|]. split; [reflexivity|]. vm_compute. reflexivity.
Defined.

(** A start time equal to the clock reading is not in the past, and
    construction succeeds. *)
Lemma New_start_time_now_accepted :
  (forall n, readings (wclock (frozenWorld date_2026_01_01)) n = date_2026_01_01) /\
  succeeded (New (Some (fixedRepo 7 None None)) [WithStartTime date_2026_01_01]
                 (frozenWorld date_2026_01_01)).1 = true.
Proof. split; [intros n; cbn; lia|vm_compute; reflexivity]. Qed.

Lemma New_acquire_failure_witness :
  exists e,
    New (Some (fixedRepo 0 (Some (errors_New "network error")) None)) [] world_2026 =
      (inr e, mkWorld (time_Now (wclock world_2026)).2 false
                      [EvAcquire (30 * time_Second) 0 (Some (errors_New "network error"))]) /\
    errors_Is e ErrAcquireMachineID = true.
Proof.
  apply (New_acquire_failure (fixedRepo 0 (Some (errors_New "network error")) None)
           [] world_2026 defaultGeneratorConfig (wclock world_2026)).
  - reflexivity.
  - apply validateConfig_accepts; vm_compute; repeat split; discriminate.
  - reflexivity.
Defined.

Lemma New_encoder_failure_releases_witness :
  exists e,
    @New bool Encoder.Sonyflake checkedLib (Some (fixedRepo 7 None None)) []
         world_set_back =
      (inr e, mkWorld (time_Now (time_Now (wclock world_set_back)).2).2 false
                      [EvAcquire (30 * time_Second) 7 None; EvRelease 7 None]) /\
    errors_Is e (errors_New "start time is ahead") = true.
Proof.
  apply (@New_encoder_failure_releases bool Encoder.Sonyflake checkedLib
           (fixedRepo 7 None None) [] world_set_back defaultGeneratorConfig
           (wclock world_set_back) (time_Now (wclock world_set_back)).2 7 true).
  - reflexivity.
  - apply validateConfig_accepts; vm_compute; repeat split; discriminate.
  - reflexivity.
  - lia.
  - reflexivity.
Defined.

Lemma NextID_strictly_increasing_witness :
  match New (Some (fixedRepo 7 None None)) [WithStartTime (1704067200 * time_Second)]
            (frozenWorld date_2026_01_01) with
  | (inl g, w) =>
      match run three_ids (launch g w) with
      | Some s => StronglySorted Z.lt (successes (ids s)) /\
                  NoDup (successes (ids s)) /\ length (successes (ids s)) = 3%nat
      | None => False
      end
  | (inr _, _) => False
  end.
Proof.
  construct_and_run HN Hrun.
  assert (Hmono : monotone (wclock w)).
  { eapply monotone_readings; [|apply (tickClock_monotone date_2026_01_01 0); lia].
    pose proof (New_readings (Some (fixedRepo 7 None None))
                  [WithStartTime (1704067200 * time_Second)]
                  (frozenWorld date_2026_01_01)
                  ltac:(repeat constructor; apply WithStartTime_reads_only)
                  Encoder_New_readings) as Hr.
    rewrite HN in Hr. exact Hr. }
  destruct (NextID_strictly_increasing _ _ _ _ _ _ _ HN Hmono Hrun) as [Hs Hd].
  observed HN Hrun
    (fun (g : @Generator bool Encoder.Sonyflake) (w : World bool)
         (s : @Sys bool Encoder.Sonyflake) =>
       bool_decide (length (successes (ids s)) = 3%nat)) H3.
  apply bool_decide_eq_true_1 in H3. done.
Defined.

Lemma Decompose_NextID_roundtrip_witness :
  match New (Some (fixedRepo 7 None None)) [WithStartTime (1704067200 * time_Second)]
            world_2026 with
  | (inl g, w) =>
      match run three_ids (launch g w) with
      | Some s =>
          Forall (fun id => Decompose (gen s) id !! "machine-id" = Some 7) (successes (ids s))
          /\ length (successes (ids s)) = 3%nat
      | None => False
      end
  | (inr _, _) => False
  end.
Proof.
  construct_and_run HN Hrun.
  observed HN Hrun
    (fun (g : @Generator bool Encoder.Sonyflake) (w : World bool)
         (s : @Sys bool Encoder.Sonyflake) =>
       bool_decide (machineID g = 7 /\ length (successes (ids s)) = 3%nat)) H3.
  apply bool_decide_eq_true_1 in H3 as [Hid Hlen]. split; [|done].
  apply Forall_forall. intros id Hin.
  destruct (Decompose_NextID_roundtrip _ _ _ _ _ _ _ id HN Hrun Hin) as (Hm & _).
  by rewrite <- Hid.
Defined.

Lemma NextID_after_Stop_witness :
  match New (Some (fixedRepo 7 None None)) [] world_2026 with
  | (inl g, w) =>
      match run stop_twice (launch g w) with
      | Some s =>
          exists id s', exec ActNextID s = Some s' /\
                        ids s' = ids s ++ [(id, None)] /\
                        Encoder.machinePart id = 7 /\
                        calls (world s') = calls (world s)
      | None => False
      end
  | (inr _, _) => False
  end.
Proof.
  construct_and_run HN Hrun.
  assert (Hmono : monotone (wclock w)).
  { eapply monotone_readings;
      [|apply (tickClock_monotone date_2026_01_01 time_Millisecond); by vm_compute].
    pose proof (New_readings (Some (fixedRepo 7 None None)) [] world_2026
                  ltac:(constructor) Encoder_New_readings) as Hr.
    rewrite HN in Hr. exact Hr. }
  observed HN Hrun
    (fun (g : @Generator bool Encoder.Sonyflake) (w : World bool)
         (s : @Sys bool Encoder.Sonyflake) =>
       bool_decide (stops s !! 0%nat = Some (StopReturned None)) &&
       bool_decide (machineID g = 7) &&
       (Encoder.epoch (sf g) <=? readings (wclock (world s)) (cursor (wclock (world s)))) &&
       ((readings (wclock (world s)) (cursor (wclock (world s))) - Encoder.epoch (sf g))
          / Encoder.timeUnit (sf g) + 1 <? 2 ^ 39)) H4.
  apply andb_true_iff in H4 as [H4 Hlife]. apply andb_true_iff in H4 as [H4 Hnow].
  apply andb_true_iff in H4 as [Hret Hid].
  apply bool_decide_eq_true_1 in Hret. apply bool_decide_eq_true_1 in Hid.
  apply Z.leb_le in Hnow. apply Z.ltb_lt in Hlife.
  destruct (NextID_after_Stop _ _ _ _ _ _ _ _ _ HN Hmono Hrun Hret Hnow Hlife)
    as (id & s' & Hex & Hids & Hm & _ & _ & Hcalls & _).
  exists id, s'. by rewrite <- Hid.
Defined.

(** * The further properties at concrete inputs *)

Lemma New_success_witness :
  New (Some (fixedRepo 7 None None)) [] world_2026 =
    (inl (mkGenerator
            (Encoder.mkSonyflake date_2025_01_01 (10 * time_Millisecond) 0 0 7)
            (fixedRepo 7 None None) 7 Open Open OnceFresh None
            (30 * time_Second) (10 * time_Second)),
     mkWorld (time_Now (wclock world_2026)).2 true
             [EvAcquire (30 * time_Second) 7 None; EvGoHeartbeat]).
Proof.
  apply (New_success (fixedRepo 7 None None) [] world_2026 defaultGeneratorConfig
           (wclock world_2026) (time_Now (wclock world_2026)).2).
  - reflexivity.
  - apply validateConfig_accepts; vm_compute; repeat split; discriminate.
  - reflexivity.
  - lia.
  - reflexivity.
Defined.

Lemma New_first_failing_option_witness :
  exists err,
    New (Some (fixedRepo 7 None None))
        ([WithTTL time_Second] ++ WithTimeUnit (500 * 1000) :: [WithTTL 0]) world_2026 =
      (inr err, set_clock (wclock world_2026) world_2026) /\
    errors_Is err ErrInvalidTimeUnit = true /\
    Error err = "apply option failed: " +:+ Error ErrInvalidTimeUnit.
Proof.
  apply (New_first_failing_option (fixedRepo 7 None None) [WithTTL time_Second]
           (WithTimeUnit (500 * 1000)) [WithTTL 0] world_2026
           (mkConfig (settings defaultGeneratorConfig) time_Second (10 * time_Second))
           (wclock world_2026)
           (mkConfig (settings defaultGeneratorConfig) time_Second (10 * time_Second))
           ErrInvalidTimeUnit (wclock world_2026)).
  - reflexivity.
  - reflexivity.
Defined.

Lemma New_TTL_RenewFrequency_any_order_witness :
  New (Some (fixedRepo 7 None None))
      ([] ++ WithTTL (60 * time_Second) :: WithRenewFrequency (20 * time_Second) :: [])
      world_2026 =
  New (Some (fixedRepo 7 None None))
      ([] ++ WithRenewFrequency (20 * time_Second) :: WithTTL (60 * time_Second) :: [])
      world_2026.
Proof.
  apply (@New_TTL_RenewFrequency_any_order bool Encoder.Sonyflake Encoder.lib);
    by vm_compute.
Defined.

Lemma lifecycle_never_panics_witness :
  match New (Some (fixedRepo 7 None None)) [] world_2026 with
  | (inl g, w) =>
      match run stop_twice (launch g w) with
      | Some s => panicked s = false
      | None => False
      end
  | (inr _, _) => False
  end.
Proof.
  construct_and_run HN Hrun.
  exact (lifecycle_never_panics _ _ _ _ _ _ _ HN Hrun).
Defined.

Lemma heartbeat_runs_until_Stop_witness :
  match New (Some (fixedRepo 7 None None)) [] world_2026 with
  | (inl g, w) =>
      match run renew_once (launch g w) with
      | Some s =>
          stopChan (gen s) = Open /\
          hb s <> HbReturn /\ hb s <> HbTickerStop /\ hb s <> HbDone /\
          exists evs, calls (world s) = calls w ++ evs /\ Forall (own_renewal g) evs
      | None => False
      end
  | (inr _, _) => False
  end.
Proof.
  construct_and_run HN Hrun.
  observed HN Hrun
    (fun (g : @Generator bool Encoder.Sonyflake) (w : World bool)
         (s : @Sys bool Encoder.Sonyflake) => bool_decide (stops s = [])) Hnil.
  apply bool_decide_eq_true_1 in Hnil.
  exact (heartbeat_runs_until_Stop _ _ _ _ _ _ _ HN Hrun Hnil).
Defined.

Lemma heartbeat_renews_again_witness :
  match New (Some (fixedRepo 7 None None)) [] world_2026 with
  | (inl g, w) =>
      match run renew_once (launch g w) with
      | Some s =>
          exists sched' s' r,
            run sched' s = Some s' /\
            calls (world s') = calls (world s) ++ [EvRenew (machineID g) (ttl g) r]
      | None => False
      end
  | (inr _, _) => False
  end.
Proof.
  construct_and_run HN Hrun.
  observed HN Hrun
    (fun (g : @Generator bool Encoder.Sonyflake) (w : World bool)
         (s : @Sys bool Encoder.Sonyflake) => bool_decide (stopChan (gen s) = Open))
    Hopen.
  apply bool_decide_eq_true_1 in Hopen.
  exact (heartbeat_renews_again _ _ _ _ _ _ _ HN Hrun Hopen).
Defined.

Lemma Stop_returns_release_outcome_witness :
  match New (Some (fixedRepo 7 None (Some (errors_New "connection refused"))))
            [] world_2026 with
  | (inl g, w) =>
      match run stop_twice (launch g w) with
      | Some s =>
          exists pre r,
            calls (world s) = calls w ++ pre ++ [EvRelease (machineID g) r] /\
            match r with
            | None => Stop_result (Some (errors_New "connection refused")) = None
            | Some cause =>
                exists err,
                  Stop_result (Some (errors_New "connection refused")) = Some err /\
                  errors_Is err ErrReleaseMachineID = true /\
                  Error err = "failed to release machine ID: " +:+ Error cause
            end
      | None => False
      end
  | (inr _, _) => False
  end.
Proof.
  construct_and_run HN Hrun.
  observed HN Hrun
    (fun (g : @Generator bool Encoder.Sonyflake) (w : World bool)
         (s : @Sys bool Encoder.Sonyflake) =>
       bool_decide (stops s !! 1%nat =
                    Some (StopReturned (Stop_result (Some (errors_New "connection refused"))))))
    H1.
  apply bool_decide_eq_true_1 in H1.
  exact (Stop_returns_release_outcome _ _ _ _ _ _ _ _ _ HN Hrun H1).
Defined.

Lemma lifecycle_log_witness :
  match New (Some (fixedRepo 7 None None)) [] world_2026 with
  | (inl g, w) =>
      match run stop_twice (launch g w) with
      | Some s =>
          exists r1 r2 r,
            calls (world s) =
              calls world_2026 ++ [EvAcquire (ttl g) (machineID g) None; EvGoHeartbeat]
                ++ r1 ++ [EvCloseStop] ++ r2
                ++ [EvCloseDone; EvRelease (machineID g) r] /\
            Forall (own_renewal g) r1 /\ Forall (own_renewal g) r2
      | None => False
      end
  | (inr _, _) => False
  end.
Proof.
  construct_and_run HN Hrun.
  observed HN Hrun
    (fun (g : @Generator bool Encoder.Sonyflake) (w : World bool)
         (s : @Sys bool Encoder.Sonyflake) =>
       bool_decide (stops s !! 0%nat = Some (StopReturned None))) H0.
  apply bool_decide_eq_true_1 in H0.
  exact (lifecycle_log _ _ _ _ _ _ _ _ _ HN Hrun H0).
Defined.

Lemma MockRepo_release_then_acquire_witness :
  exists j m2,
    AcquireMachineID (MockRepo None None None) (30 * time_Second)
      (ReleaseMachineID (MockRepo None None None) 1
         (mkMockState 2 0 0 (<[1 := true]> (<[0 := true]> ∅)))).2 = ((j, None), m2) /\
    0 <= j <= 1.
Proof.
  apply (MockRepo_release_then_acquire None None 1 (30 * time_Second)
           (mkMockState 2 0 0 (<[1 := true]> (<[0 := true]> ∅)))).
  lia.
Defined.

Lemma MockRepo_generators_distinct_witness :
  match New (Some (MockRepo None None None)) [] mock_world_2026 with
  | (inl g1, w1) =>
      match run renew_once (launch g1 w1) with
      | Some s =>
          match New (Some (MockRepo None None None)) [] (world s) with
          | (inl g2, _) => machineID g1 <> machineID g2
          | (inr _, _) => False
          end
      | None => False
      end
  | (inr _, _) => False
  end.
Proof.
  construct_and_run HN Hrun.
  observed HN Hrun
    (fun (g : @Generator MockState Encoder.Sonyflake) (w : World MockState)
         (s : @Sys MockState Encoder.Sonyflake) =>
       bool_decide (stops s = []) &&
       succeeded (New (Some (MockRepo None None None)) [] (world s)).1) Hobs.
  apply andb_true_iff in Hobs as [Hnil Hok]. apply bool_decide_eq_true_1 in Hnil.
  change (succeeded (New (Some (MockRepo None None None)) [] (world s)).1 = true) in Hok.
  destruct (New _ _ (world s)) as [[g2|e2] w2] eqn:HN2; [|discriminate].
  exact (MockRepo_generators_distinct _ _ _ _ _ _ _ _ _ _ HN Hrun Hnil HN2).
Defined.
